(** * Codado [codado/py.py]: docstring views and the [fromdir] path resolver

    A shallow embedding of [Documentation] (first line and line-folded views,
    construction from a string or from an object's docstring) and of [fromdir]
    (construction from path fragments, the path-join call, the scoped change
    of working directory), with the Python 2.7 library functions the code
    calls ([str] methods, [inspect.cleandoc], [posixpath]) written out;
    then [enum] and the class decorator [eachMethod]. *)

From Stdlib Require Import String Ascii List Bool Arith ZArith NArith Lia.
Import ListNotations.

Set Implicit Arguments.

(* ================================================================== *)
(** * Definitions *)
(* ================================================================== *)

(** ** Characters of the two Python 2 string types

    [str] is a sequence of bytes and [unicode] a sequence of code points.
    The string methods the module uses behave alike on both, so they are
    written once over a character type with the operations below. *)

Class PyChar (A : Type) : Type := {
  ch_eqb : A -> A -> bool;
  ch_eqb_eq : forall a b, ch_eqb a b = true <-> a = b;
  ch : ascii -> A;
  ch_inj : forall a b, ch a = ch b -> a = b;
  isspace : A -> bool;
  isspace_blank : isspace (ch " ") = true
}.

(** [str.isspace] in the C locale: TAB, LF, VT, FF, CR and the blank. *)
Definition byte_isspace (c : ascii) : bool :=
  let n := nat_of_ascii c in
  ((9 <=? n) && (n <=? 13)) || (n =? 32).

(** [unicode.isspace] of Python 2.7 (its Unicode 5.2 database). *)
Definition code_isspace (c : N) : bool :=
  (((9 <=? c) && (c <=? 13)) || ((28 <=? c) && (c <=? 32))
   || (c =? 133) || (c =? 160) || (c =? 5760) || (c =? 6158)
   || ((8192 <=? c) && (c <=? 8202)) || (c =? 8232) || (c =? 8233)
   || (c =? 8239) || (c =? 8287) || (c =? 12288))%N.

#[export] Instance byte_char : PyChar ascii := {|
  ch_eqb := Ascii.eqb;
  ch_eqb_eq := Ascii.eqb_eq;
  ch := fun c => c;
  ch_inj := fun a b H => H;
  isspace := byte_isspace;
  isspace_blank := eq_refl
|}.

#[export] Instance code_char : PyChar N := {|
  ch_eqb := N.eqb;
  ch_eqb_eq := N.eqb_eq;
  ch := N_of_ascii;
  ch_inj := fun a b H =>
    eq_trans (eq_sym (ascii_N_embedding a))
      (eq_trans (f_equal ascii_of_N H) (ascii_N_embedding b));
  isspace := code_isspace;
  isspace_blank := eq_refl
|}.

(** A [str] literal. *)
Definition py (s : string) : list ascii := list_ascii_of_string s.
Arguments py s%_string.

(** ** String methods *)

Fixpoint dropwhile {X : Type} (p : X -> bool) (s : list X) : list X :=
  match s with
  | [] => []
  | c :: t => if p c then dropwhile p t else s
  end.

Section StrMethods.
Context {A : Type} `{PyChar A}.

Definition NL : A := ch "010".   (* '\n' *)
Definition VT : A := ch "011".   (* '\v' *)
Definition TAB : A := ch "009".  (* '\t' *)
Definition CR : A := ch "013".   (* '\r' *)
Definition SP : A := ch " ".
Definition SLASH : A := ch "/".

Fixpoint str_eqb (s t : list A) : bool :=
  match s, t with
  | [], [] => true
  | a :: s', b :: t' => ch_eqb a b && str_eqb s' t'
  | _, _ => false
  end.

(** [s.split(sep)] for a one-character separator: always at least one
    piece, one more than the number of separators. *)
Fixpoint split (sep : A) (s : list A) : list (list A) :=
  match s with
  | [] => [[]]
  | c :: t =>
      if ch_eqb c sep then [] :: split sep t
      else match split sep t with
           | piece :: rest => (c :: piece) :: rest
           | [] => [[c]]
           end
  end.

(** [sep.join(pieces)]. *)
Fixpoint str_join (sep : list A) (pieces : list (list A)) : list A :=
  match pieces with
  | [] => []
  | [p] => p
  | p :: rest => p ++ sep ++ str_join sep rest
  end.

(** [s.replace(old, new)] for a one-character [old]. *)
Fixpoint replace (old : A) (new : list A) (s : list A) : list A :=
  match s with
  | [] => []
  | c :: t => if ch_eqb c old then new ++ replace old new t
              else c :: replace old new t
  end.

(** [re.sub(r'\n\n', repl, s)]: leftmost, non-overlapping pairs of
    newlines are replaced, scanning from the left. *)
Fixpoint re_sub_nlnl (repl : list A) (s : list A) : list A :=
  match s with
  | [] => []
  | a :: r =>
      match r with
      | b :: t =>
          if ch_eqb a NL && ch_eqb b NL then repl ++ re_sub_nlnl repl t
          else a :: re_sub_nlnl repl r
      | [] => [a]
      end
  end.

(** [s.lstrip()] *)
Definition lstrip (s : list A) : list A := dropwhile isspace s.

(** [s.rstrip(c)] for a one-character argument. *)
Definition rstrip_char (c : A) (s : list A) : list A :=
  rev (dropwhile (fun x => ch_eqb x c) (rev s)).

(** [s.startswith(prefix)] *)
Fixpoint startswith (s prefix : list A) {struct prefix} : bool :=
  match prefix, s with
  | [], _ => true
  | p :: prefix', c :: s' => ch_eqb c p && startswith s' prefix'
  | _ :: _, [] => false
  end.

(** [s.endswith(suffix)] *)
Definition endswith (s suffix : list A) : bool :=
  startswith (rev s) (rev suffix).

(** [s.find(c)]: the lowest index of [c], or -1. *)
Fixpoint find (c : A) (s : list A) : Z :=
  match s with
  | [] => -1
  | x :: t => if ch_eqb x c then 0
              else let r := find c t in
                   if (r <? 0)%Z then (-1)%Z else (r + 1)%Z
  end.

(** [s.find(c, start)] for [0 <= start]. *)
Definition find_from (c : A) (start : nat) (s : list A) : Z :=
  if length s <? start then (-1)%Z
  else let r := find c (skipn start s) in
       if (r <? 0)%Z then (-1)%Z else (r + Z.of_nat start)%Z.

(** [s.rfind(c)]: the highest index of [c], or -1. *)
Fixpoint rfind (c : A) (s : list A) : Z :=
  match s with
  | [] => -1
  | x :: t => let r := rfind c t in
              if (0 <=? r)%Z then (r + 1)%Z
              else if ch_eqb x c then 0%Z else (-1)%Z
  end.

(** [s[:i]] and [s[i:]] for [0 <= i]. *)
Definition slice_to (i : Z) (s : list A) : list A := firstn (Z.to_nat i) s.
Definition slice_from (i : Z) (s : list A) : list A := skipn (Z.to_nat i) s.

(** [s.expandtabs(tabsize)]: [j] is the current column; a tab pads to the
    next multiple of [tabsize], a newline or carriage return resets it. *)
Fixpoint expandtabs_at (tabsize j : nat) (s : list A) : list A :=
  match s with
  | [] => []
  | c :: t =>
      if ch_eqb c TAB then
        if 0 <? tabsize then
          let incr := tabsize - (j mod tabsize) in
          repeat SP incr ++ expandtabs_at tabsize (j + incr) t
        else expandtabs_at tabsize j t
      else
        c :: expandtabs_at tabsize
               (if ch_eqb c NL || ch_eqb c CR then 0 else S j) t
  end.

Definition expandtabs (s : list A) : list A := expandtabs_at 8 0 s.

(** ** [inspect.cleandoc] *)

(** [sys.maxint] on a 64-bit build. *)
Definition sys_maxint : Z := 9223372036854775807.

(** The loop over [lines[1:]] that finds the least indentation of the
    lines with content. *)
Definition margin_step (margin : Z) (line : list A) : Z :=
  let content := Z.of_nat (length (lstrip line)) in
  if (content =? 0)%Z then margin
  else let indent := (Z.of_nat (length line) - content)%Z in
       Z.min margin indent.

Definition isempty (line : list A) : bool :=
  match line with [] => true | _ => false end.

Definition cleandoc (doc : list A) : list A :=
  let lines := split NL (expandtabs doc) in
  let margin := fold_left margin_step (tl lines) sys_maxint in
  (* lines[0] = lines[0].lstrip() *)
  let lines := match lines with
               | [] => []
               | l0 :: rest => lstrip l0 :: rest
               end in
  (* for i in range(1, len(lines)): lines[i] = lines[i][margin:] *)
  let lines := if (margin <? sys_maxint)%Z then
                 match lines with
                 | [] => []
                 | l0 :: rest => l0 :: map (slice_from margin) rest
                 end
               else lines in
  (* while lines and not lines[-1]: lines.pop() *)
  let lines := rev (dropwhile isempty (rev lines)) in
  (* while lines and not lines[0]: lines.pop(0) *)
  let lines := dropwhile isempty lines in
  str_join [NL] lines.

(** A docstring with uniform indentation [n], line by line: a first line
    of [w0] blanks; blank lines of the widths [lead]; the body, each line
    given with the number of blanks before it; blank lines of the widths
    [trail]. *)
Definition blank (w : nat) : list A := repeat SP w.

Definition indent (w : nat) (l : list A) : list A := blank w ++ l.

Definition src_line (wl : nat * list A) : list A :=
  indent (fst wl) (snd wl).

Definition indented_doc (w0 : nat) (lead : list nat)
    (body : list (nat * list A)) (trail : list nat) : list A :=
  str_join [NL]
    (blank w0 :: map blank lead ++ map src_line body ++ map blank trail).

(** A line of the body holds no newline and no tab. With content, it
    does not start with white space and sits behind exactly [n] blanks;
    without, it is a blank line of at most [n] blanks. *)
Definition body_line (n : nat) (wl : nat * list A) : Prop :=
  ~ In NL (snd wl) /\ ~ In TAB (snd wl)
  /\ match snd wl with
     | [] => fst wl <= n
     | c :: _ => fst wl = n /\ isspace c = false
     end.

(** The body starts and ends with a line that has content. *)
Definition docstring_body (n : nat) (body : list (nat * list A)) : Prop :=
  Forall (body_line n) body
  /\ hd [] (map snd body) <> [] /\ last (map snd body) [] <> [].

(** ** The two views of [Documentation], on the characters of [raw] *)

(** [raw.split('\n')[0]]; indexing an empty list would raise. *)
Definition first_chars (raw : list A) : option (list A) :=
  nth_error (split NL raw) 0.

Definition full_chars (raw : list A) : list A :=
  let out := re_sub_nlnl [VT] raw in
  replace VT [NL; NL] (replace NL [SP] out).

(** The full view as the specification words it: a blank-line break stays
    a break, every other newline becomes one blank. *)
Fixpoint fold_lines (s : list A) : list A :=
  match s with
  | [] => []
  | a :: r =>
      match r with
      | b :: t =>
          if ch_eqb a NL && ch_eqb b NL then NL :: NL :: fold_lines t
          else (if ch_eqb a NL then SP else a) :: fold_lines r
      | [] => [if ch_eqb a NL then SP else a]
      end
  end.

(** A text laid out in paragraphs: lines joined by one newline, paragraphs
    by a blank line. A line of it is not empty and holds neither a newline
    nor the marker character. *)
Definition plain_line (l : list A) : Prop :=
  l <> [] /\ ~ In NL l /\ ~ In VT l.

Definition plain_paragraph (para : list (list A)) : Prop :=
  para <> [] /\ Forall plain_line para.

Definition paragraphs_text (ps : list (list (list A))) : list A :=
  str_join [NL; NL] (map (str_join [NL]) ps).

Definition folded_text (ps : list (list (list A))) : list A :=
  str_join [NL; NL] (map (str_join [SP]) ps).

End StrMethods.

(** ** [Documentation] *)

(** A Python 2 string value: a byte [str] or a [unicode]. *)
Inductive pytext : Type :=
| Str (s : list ascii)
| Unicode (u : list N).

(** The attrs class: [raw], and [decode] with default [False]. *)
Record Documentation : Type := mkDocumentation {
  raw : pytext;
  decode : bool
}.

(** [cls(x)]: only [raw] is given, [decode] takes its default. *)
Definition cls (x : pytext) : Documentation :=
  {| raw := x; decode := false |}.

Definition first (self : Documentation) : option pytext :=
  match raw self with
  | Str s => option_map Str (first_chars s)
  | Unicode u => option_map Unicode (first_chars u)
  end.

Definition full (self : Documentation) : pytext :=
  match raw self with
  | Str s => Str (full_chars s)
  | Unicode u => Unicode (full_chars u)
  end.

(** The text holds the character [c]. *)
Definition text_contains (c : ascii) (t : pytext) : Prop :=
  match t with
  | Str s => In (ch c) s
  | Unicode u => In (ch c) u
  end.

(** The specification's reading of the full view, on either string type. *)
Definition fold_lines_text (t : pytext) : pytext :=
  match t with
  | Str s => Str (fold_lines s)
  | Unicode u => Unicode (fold_lines u)
  end.

(** An object, as far as this module looks at it: its [__doc__]. *)
Record PyObject : Type := { __doc__ : option pytext }.

(** The library calls a construction makes, in order. *)
Inductive call : Type :=
| Call_cleandoc (s : pytext)
| Call_decode_utf8 (s : list ascii)
| Call_fix_encoding (u : list N).

Inductive doc_exn : Type := UnicodeDecodeError.

(** A computation that logs its library calls and may raise. *)
Definition Logged (X : Type) : Type := (list call * (X + doc_exn))%type.

Definition lret {X} (x : X) : Logged X := ([], inl x).
Definition lraise {X} (e : doc_exn) : Logged X := ([], inr e).
Definition ltell (c : call) : Logged unit := ([c], inl tt).
Definition lbind {X Y} (m : Logged X) (k : X -> Logged Y) : Logged Y :=
  match m with
  | (log, inl x) => let '(log', r) := k x in (log ++ log', r)
  | (log, inr e) => (log, inr e)
  end.

Notation "x <- m ;; k" := (lbind m (fun x => k))
  (at level 61, m at next level, right associativity).
Notation "m ;;; k" := (lbind m (fun _ => k))
  (at level 61, right associativity).

(** Truth value of the [decode] argument: [None], [False] or [True]. *)
Definition truthy (decode : option bool) : bool :=
  match decode with Some true => true | _ => false end.

Section Construction.
(** [s.decode('utf-8')] ([None]: it raises) and [ftfy.fix_encoding]. *)
Variable decode_utf8 : list ascii -> option (list N).
Variable fix_encoding : list N -> list N.

Definition inspect_cleandoc (s : pytext) : Logged pytext :=
  ltell (Call_cleandoc s) ;;;
  lret (match s with
        | Str b => Str (cleandoc b)
        | Unicode u => Unicode (cleandoc u)
        end).

Definition str_decode_utf8 (b : list ascii) : Logged (list N) :=
  ltell (Call_decode_utf8 b) ;;;
  match decode_utf8 b with
  | Some u => lret u
  | None => lraise UnicodeDecodeError
  end.

Definition ftfy_fix_encoding (u : list N) : Logged (list N) :=
  ltell (Call_fix_encoding u) ;;; lret (fix_encoding u).

Definition fromString (s : pytext) (decode : option bool)
  : Logged Documentation :=
  out <- inspect_cleandoc s ;;
  match out with
  | Unicode _ => lret (cls out)
  | Str b =>
      if negb (truthy decode) then lret (cls out)
      else u <- str_decode_utf8 b ;;
           f <- ftfy_fix_encoding u ;;
           lret (cls (Unicode f))
  end.

Definition fromObject (obj : PyObject) (decode : option bool)
  : Logged Documentation :=
  match __doc__ obj with
  | None => lret (cls (if truthy decode then Unicode [] else Str []))
  | Some d => fromString d decode
  end.

(** [doc(obj)]: [decode] is left at its default [None]. *)
Definition doc (obj : PyObject) : Logged (option pytext) :=
  d <- fromObject obj None ;; lret (first d).

End Construction.

(** ** The process and the file system, as [os] and [os.path] see them *)

Definition str : Type := list ascii.

Record World : Type := mkWorld {
  (** [os.getcwd()] *)
  cwd : str;
  (** [os.environ['HOME']], when the variable is set *)
  environ_HOME : option str;
  (** [pwd.getpwuid(os.getuid()).pw_dir] *)
  pw_dir_uid : str;
  (** [pwd.getpwnam(name).pw_dir]; [None] when it raises [KeyError] *)
  pw_dir_name : str -> option str;
  (** [os.stat(p)] succeeds and reports a regular file *)
  stat_isreg : str -> bool;
  (** the directory [os.chdir(p)] moves to from the current one, as
      [os.getcwd()] then reports it; [None] when the call fails *)
  dir_lookup : str -> str -> option str
}.

Definition set_cwd (d : str) (w : World) : World :=
  {| cwd := d;
     environ_HOME := environ_HOME w;
     pw_dir_uid := pw_dir_uid w;
     pw_dir_name := pw_dir_name w;
     stat_isreg := stat_isreg w;
     dir_lookup := dir_lookup w |}.

(** ** [posixpath] (Python 2.7), on [str] paths *)

Module posixpath.

Definition isabs (s : str) : bool := startswith s (py "/").

(** One round of the loop of [join(a, *p)]. *)
Definition join_step (path b : str) : str :=
  if startswith b (py "/") then b
  else if isempty path || endswith path (py "/") then path ++ b
  else path ++ py "/" ++ b.

Definition join (a : str) (p : list str) : str := fold_left join_step p a.

Definition dirname (p : str) : str :=
  let i := (rfind SLASH p + 1)%Z in
  let head := slice_to i p in
  if negb (isempty head)
     && negb (str_eqb head (repeat SLASH (length head)))
  then rstrip_char SLASH head
  else head.

(** [isfile]: a failing [os.stat] gives [False]. *)
Definition isfile (w : World) (path : str) : bool := stat_isreg w path.

Definition expanduser (w : World) (path : str) : str :=
  if negb (startswith path (py "~")) then path
  else
    let i := find_from SLASH 1 path in
    let i := if (i <? 0)%Z then Z.of_nat (length path) else i in
    let finish (userhome : str) : str :=
      let userhome := rstrip_char SLASH userhome in
      let r := userhome ++ slice_from i path in
      if isempty r then py "/" else r in
    if (i =? 1)%Z then
      match environ_HOME w with
      | None => finish (pw_dir_uid w)
      | Some home => finish home
      end
    else
      match pw_dir_name w (slice_from 1 (slice_to i path)) with
      | None => path
      | Some userhome => finish userhome
      end.

(** One round of the loop of [normpath] over the components;
    [new_comps] grows and shrinks at its end. *)
Definition norm_step (initial_slashes : nat) (new_comps : list str)
    (comp : str) : list str :=
  if str_eqb comp (py "") || str_eqb comp (py ".") then new_comps
  else if negb (str_eqb comp (py ".."))
          || ((initial_slashes =? 0) && isempty new_comps)
          || (negb (isempty new_comps)
              && str_eqb (last new_comps []) (py ".."))
  then new_comps ++ [comp]
  else if negb (isempty new_comps) then removelast new_comps
  else new_comps.

Definition normpath (path : str) : str :=
  if isempty path then py "."
  else
    let initial_slashes :=
      if startswith path (py "/") then
        if startswith path (py "//") && negb (startswith path (py "///"))
        then 2 else 1
      else 0 in
    let comps := split SLASH path in
    let comps := fold_left (norm_step initial_slashes) comps [] in
    let path := str_join (py "/") comps in
    let path := repeat SLASH initial_slashes ++ path in
    if isempty path then py "." else path.

Definition abspath (w : World) (path : str) : str :=
  let path := if negb (isabs path) then join (cwd w) [path] else path in
  normpath path.

End posixpath.

(** ** [fromdir] *)

Definition _sibpath (w : World) (path sibling : str) : str :=
  posixpath.join (posixpath.dirname (posixpath.abspath w path)) [sibling].

(** The instance: [path], and [_origDir], absent until [__enter__] sets it. *)
Record fromdir : Type := mkFromdir {
  path : str;
  _origDir : option str
}.

(** One round of the loop of [__init__] over the fragments. *)
Definition init_step (w : World) (self_path cur : str) : str :=
  let cur := posixpath.expanduser w cur in
  let self_path := posixpath.abspath w (posixpath.join self_path [cur]) in
  if posixpath.isfile w self_path then _sibpath w self_path (py "")
  else self_path.

Definition __init__ (w : World) (paths : list str) : fromdir :=
  {| path := fold_left (init_step w) paths (py ""); _origDir := None |}.

(** The variant the specification contrasts with: join every fragment, look
    at the file system once, at the end. *)
Definition init_check_at_end (w : World) (paths : list str) : str :=
  let join_only acc cur :=
    posixpath.abspath w (posixpath.join acc [posixpath.expanduser w cur]) in
  let p := fold_left join_only paths (py "") in
  if posixpath.isfile w p then _sibpath w p (py "") else p.

(** *** Methods that run in the process: state and exceptions *)

Inductive exn : Type :=
| OSError
| AttributeError
| UserError (tag : nat).

(** The process state: the world and the resolver instance. *)
Record State : Type := mkState {
  world : World;
  self : fromdir
}.

Definition M (X : Type) : Type := State -> (X + exn) * State.

Definition ret {X} (x : X) : M X := fun st => (inl x, st).
Definition raise {X} (e : exn) : M X := fun st => (inr e, st).
Definition bind {X Y} (m : M X) (k : X -> M Y) : M Y :=
  fun st => match m st with
            | (inl x, st') => k x st'
            | (inr e, st') => (inr e, st')
            end.

Notation "x <~ m ;; k" := (bind m (fun x => k))
  (at level 61, m at next level, right associativity).

Definition os_getcwd : M str := fun st => (inl (cwd (world st)), st).

Definition os_chdir (p : str) : M unit :=
  fun st =>
    let w := world st in
    match dir_lookup w (cwd w) p with
    | Some d => (inl tt, {| world := set_cwd d w; self := self st |})
    | None => (inr OSError, st)
    end.

Definition get_path : M str := fun st => (inl (path (self st)), st).

Definition get_origDir : M str :=
  fun st => match _origDir (self st) with
            | Some d => (inl d, st)
            | None => (inr AttributeError, st)
            end.

Definition set_origDir (d : str) : M unit :=
  fun st => (inl tt, {| world := world st;
                        self := {| path := path (self st);
                                   _origDir := Some d |} |}).

Definition __call__ (args : list str) : M str :=
  p <~ get_path ;;
  ret (posixpath.join p args).

Definition __enter__ : M fromdir :=
  d <~ os_getcwd ;;
  _ <~ set_origDir d ;;
  p <~ get_path ;;
  _ <~ os_chdir p ;;
  fun st => (inl (self st), st).

(** [__exit__(type, value, tb)]: its result is [None], which is false. *)
Definition __exit__ (exc : option exn) : M bool :=
  d <~ get_origDir ;;
  _ <~ os_chdir d ;;
  ret false.

(** [with self as x: body(x)], by the context-manager protocol: the body
    runs only when [__enter__] returned; [__exit__] runs however the body
    ended, and an error of the body is raised again unless [__exit__]
    returns a true value. *)
Definition with_fromdir (body : fromdir -> M unit) : M unit :=
  x <~ __enter__ ;;
  fun st =>
    match body x st with
    | (inl tt, st') => (_ <~ __exit__ None ;; ret tt) st'
    | (inr e, st') =>
        (suppress <~ __exit__ (Some e) ;;
         if suppress : bool then ret tt else raise e) st'
    end.

(** A component of a normalized absolute path: a name, neither empty nor
    [.] nor [..], without a slash in it. *)
Definition plain_component (c : str) : Prop :=
  c <> py "" /\ c <> py "." /\ c <> py ".." /\ ~ In SLASH c.

(** The number of leading slashes [normpath] keeps: none, one or two. *)
Definition initial_slashes (path : str) : nat :=
  if startswith path (py "/") then
    if startswith path (py "//") && negb (startswith path (py "///"))
    then 2 else 1
  else 0.

(** The path-join of the specification: the base path joined with each
    argument in turn, one at a time. *)
Fixpoint join_in_order (base : str) (args : list str) : str :=
  match args with
  | [] => base
  | a :: rest => join_in_order (posixpath.join base [a]) rest
  end.

(** *** The machine of the class docstring

    The checkout of its examples: the package directory holds
    [__init__.py] and [tx.py]; every absolute path can be entered. *)
Definition codado_file : str := py "/home/cory/src/Codado/codado/__init__.py".

Definition cory_world : World :=
  {| cwd := py "/home/cory/src/Codado";
     environ_HOME := Some (py "/home/cory");
     pw_dir_uid := py "/home/cory";
     pw_dir_name := fun _ => None;
     stat_isreg := fun p =>
       str_eqb p codado_file
       || str_eqb p (py "/home/cory/src/Codado/codado/tx.py");
     dir_lookup := fun _ p =>
       if posixpath.isabs p then Some (posixpath.normpath p) else None |}.

(** A body for the [with] block: it moves to [/tmp], then fails. *)
Definition failing_body (_ : fromdir) : M unit :=
  _ <~ os_chdir (py "/tmp") ;; raise (UserError 7).

(** *** The lines of [cleandoc], before they are joined *)

Section CleanedLines.
Context {A : Type} `{PyChar A}.

(** The list [lines] of [cleandoc] when its last statement joins it. *)
Definition cleaned_lines (doc : list A) : list (list A) :=
  let lines := split NL (expandtabs doc) in
  let margin := fold_left margin_step (tl lines) sys_maxint in
  let lines := match lines with
               | [] => []
               | l0 :: rest => lstrip l0 :: rest
               end in
  let lines := if (margin <? sys_maxint)%Z then
                 match lines with
                 | [] => []
                 | l0 :: rest => l0 :: map (slice_from margin) rest
                 end
               else lines in
  let lines := rev (dropwhile isempty (rev lines)) in
  dropwhile isempty lines.

End CleanedLines.

(** *** Statements about the resolver *)

(** [posixpath.basename] (Python 2.7): what follows the last slash. *)
Definition basename (p : str) : str :=
  let i := (rfind SLASH p + 1)%Z in
  slice_from i p.

(** The standard join of the working directory with the home-expanded
    fragments, normalized. *)
Definition joined_fragments (w : World) (paths : list str) : str :=
  posixpath.normpath
    (posixpath.join (cwd w) (map (posixpath.expanduser w) paths)).

(** No file is hit on the way: after each fragment, the joined path is not
    an existing regular file. *)
Definition no_file_hit (w : World) (paths : list str) : Prop :=
  forall pre post : list str,
    pre <> [] -> paths = pre ++ post ->
    posixpath.isfile w (joined_fragments w pre) = false.

(** ** [enum]

    A [dict] whose keys are strings, as an association list without
    repeated keys; the order of the items is not observable through the
    operations below. *)

Section Dict.
Context {V : Type}.

(** [d[k] = v] *)
Fixpoint dict_setitem (k : str) (v : V) (d : list (str * V))
  : list (str * V) :=
  match d with
  | [] => [(k, v)]
  | (k', v') :: rest =>
      if str_eqb k' k then (k, v) :: rest
      else (k', v') :: dict_setitem k v rest
  end.

(** [d[k]]; [None] when it raises [KeyError]. *)
Fixpoint dict_getitem (k : str) (d : list (str * V)) : option V :=
  match d with
  | [] => None
  | (k', v') :: rest => if str_eqb k' k then Some v' else dict_getitem k rest
  end.

(** One item stored: the body of the loops below. *)
Definition set_pair (d : list (str * V)) (kv : str * V) : list (str * V) :=
  dict_setitem (fst kv) (snd kv) d.

(** [dict(pairs)] *)
Definition dict_of_pairs (pairs : list (str * V)) : list (str * V) :=
  fold_left set_pair pairs [].

(** [d.update(other)] *)
Definition dict_update (d other : list (str * V)) : list (str * V) :=
  fold_left set_pair other d.

End Dict.

Module enum.

Inductive exn : Type := AttributeError (attr : str).

(** The loop that appends [(k, k)] for each key. *)
Definition key_pairs (keys : list str) : list (str * str) :=
  fold_left (fun dd k => dd ++ [(k, k)]) keys [].

Definition fromkeys (keys : list str) : list (str * str) :=
  let ret := [] in
  let dd := key_pairs keys in
  dict_update ret (dict_of_pairs dd).

(** Python calls [__getattr__] when the ordinary attribute lookup found
    nothing. *)
Definition __getattr__ (self : list (str * str)) (attr : str) : str + exn :=
  match dict_getitem attr self with
  | Some v => inl v
  | None => inr (AttributeError attr)
  end.

End enum.

(** ** [eachMethod]

    The values met while decorating a class stay abstract; the code looks
    at a member through three tests only. *)

Inductive method_filter : Type :=
| FilterFunction (f : str -> bool)
| FilterPrefix (prefix : str).

Inductive deco_exn : Type := AssertionError (fName : str).

Section EachMethod.
Variable V : Type.
(** [type(fn) is types.MethodType] *)
Variable is_method : V -> bool.
(** [fn.im_self is None]: an unbound instance method *)
Variable im_self_is_None : V -> bool.
(** [fn.im_class is type] *)
Variable im_class_is_type : V -> bool.
Variable decorator : V -> V.
Variable classmethod : V -> V.

(** A string filter stands for the test of that prefix. *)
Definition filter_test (methodFilter : method_filter) : str -> bool :=
  match methodFilter with
  | FilterFunction f => f
  | FilterPrefix prefix => fun fName => startswith fName prefix
  end.

(** The loop of [innerDeco] over [inspect.getmembers(cls)], a list of
    names with their values sorted by name; [cls] is the attribute table
    that [setattr] writes. A failed assertion ends the loop and leaves the
    attributes already written. *)
Fixpoint innerDeco_loop (test : str -> bool) (members : list (str * V))
    (cls : list (str * V)) : list (str * V) * option deco_exn :=
  match members with
  | [] => (cls, None)
  | (fName, fn) :: rest =>
      if is_method fn && test fName then
        if im_self_is_None fn then
          innerDeco_loop test rest (dict_setitem fName (decorator fn) cls)
        else if im_class_is_type fn then
          innerDeco_loop test rest
            (dict_setitem fName (classmethod (decorator fn)) cls)
        else (cls, Some (AssertionError fName))
      else innerDeco_loop test rest cls
  end.

Definition eachMethod (methodFilter : method_filter)
    (members cls : list (str * V)) : list (str * V) * option deco_exn :=
  innerDeco_loop (filter_test methodFilter) members cls.

(** A member the loop rewraps, and one it rewraps without failing. *)
Definition selected (test : str -> bool) (m : str * V) : bool :=
  is_method (snd m) && test (fst m).

Definition wrappable (m : str * V) : bool :=
  im_self_is_None (snd m) || im_class_is_type (snd m).

(** What the loop stores for a member it rewraps. *)
Definition wrapped (fn : V) : V :=
  if im_self_is_None fn then decorator fn else classmethod (decorator fn).

End EachMethod.

(** *** A class to decorate

    Values just rich enough to tell the members of a small test class
    apart, and to show what was stored for them. *)
Inductive sample_value : Type :=
| Unbound (name : str)        (* an unbound instance method *)
| ClassBound (name : str)     (* a classmethod, bound to the class *)
| InstanceBound (name : str)  (* a method bound to some instance *)
| Plain (name : str)          (* any other attribute *)
| Decorated (fn : sample_value)
| AsClassmethod (fn : sample_value).

Definition sample_is_method (v : sample_value) : bool :=
  match v with
  | Unbound _ | ClassBound _ | InstanceBound _ => true
  | _ => false
  end.

Definition sample_unbound (v : sample_value) : bool :=
  match v with Unbound _ => true | _ => false end.

Definition sample_class_is_type (v : sample_value) : bool :=
  match v with ClassBound _ => true | _ => false end.

Definition sample_eachMethod :=
  eachMethod sample_is_method sample_unbound sample_class_is_type
    Decorated AsClassmethod.

Definition sample_members : list (str * sample_value) :=
  [(py "helper", Unbound (py "helper"));
   (py "limit", Plain (py "limit"));
   (py "test_make", ClassBound (py "test_make"));
   (py "test_run", Unbound (py "test_run"))].

(** *** Docstrings with uniform indentation *)

Section UniformDocstring.
Context {A : Type} `{PyChar A}.






End UniformDocstring.

(* ================================================================== *)
(** * Properties *)
(* ================================================================== *)

(** ** Characters *)

Section CharFacts.
Context {A : Type} `{PyChar A}.

Lemma ch_eqb_refl (a : A) : ch_eqb a a = true.
Proof. now apply ch_eqb_eq. Qed.

Lemma ch_eqb_neq (a b : A) : ch_eqb a b = false <-> a <> b.
Proof.
  split.
  - intros E Heq. apply ch_eqb_eq in Heq. congruence.
  - intros Hne. destruct (ch_eqb a b) eqn:E; [|reflexivity].
    apply ch_eqb_eq in E. contradiction.
Qed.

Lemma ch_neq (x y : ascii) : x <> y -> (ch x : A) <> ch y.
Proof. intros Hne Heq. apply Hne. now apply ch_inj. Qed.

Lemma NL_VT : (NL : A) <> VT.
Proof. apply ch_neq. discriminate. Qed.

Lemma NL_SP : (NL : A) <> SP.
Proof. apply ch_neq. discriminate. Qed.

Lemma SP_VT : (SP : A) <> VT.
Proof. apply ch_neq. discriminate. Qed.

Lemma str_eqb_eq (s t : list A) : str_eqb s t = true <-> s = t.
Proof.
  revert t. induction s as [|a s IH]; intros [|b t]; simpl;
    try (split; [discriminate | congruence]); try tauto.
  rewrite andb_true_iff, ch_eqb_eq, IH. split.
  - intros [-> ->]. reflexivity.
  - intros E. injection E as -> ->. auto.
Qed.

Lemma str_eqb_refl (s : list A) : str_eqb s s = true.
Proof. now apply str_eqb_eq. Qed.

Lemma str_eqb_neq (s t : list A) : str_eqb s t = false <-> s <> t.
Proof.
  split.
  - intros E Heq. apply str_eqb_eq in Heq. congruence.
  - intros Hne. destruct (str_eqb s t) eqn:E; [|reflexivity].
    apply str_eqb_eq in E. contradiction.
Qed.

End CharFacts.

(** Case analysis on a character test, with the (dis)equality it decides. *)
Ltac ch_case a b :=
  let E := fresh "E" in
  destruct (ch_eqb a b) eqn:E;
  [apply ch_eqb_eq in E | apply ch_eqb_neq in E].

(** Induction that follows a scan reading two characters at a time. *)
Lemma list_ind_pairs (X : Type) (P : list X -> Prop) :
  P [] ->
  (forall a, P [a]) ->
  (forall a b t, P t -> P (b :: t) -> P (a :: b :: t)) ->
  forall l, P l.
Proof.
  intros H0 H1 H2 l.
  assert (G : P l /\ forall a, P (a :: l)).
  { induction l as [|b t [IHt IHbt]]; split; auto. }
  exact (proj1 G).
Qed.

(** ** [split] and [str_join] *)

Section SplitJoin.
Context {A : Type} `{PyChar A}.

Lemma split_cons_shape (sep : A) (s : list A) :
  exists p rest, split sep s = p :: rest /\ ~ In sep p.
Proof.
  induction s as [|c t (p & rest & E & Hp)]; simpl.
  - exists [], []. auto.
  - ch_case c sep.
    + exists [], (split sep t). auto.
    + rewrite E. exists (c :: p), rest. split; [reflexivity|].
      intros [Hc | Hin]; [congruence | contradiction].
Qed.

Lemma split_sep_cons (sep : A) (s : list A) :
  split sep (sep :: s) = [] :: split sep s.
Proof. simpl. now rewrite ch_eqb_refl. Qed.

Lemma split_piece_sep (sep : A) (p r : list A) :
  ~ In sep p -> split sep (p ++ sep :: r) = p :: split sep r.
Proof.
  induction p as [|c p IH]; intros Hp.
  - apply split_sep_cons.
  - simpl. ch_case c sep.
    + exfalso. apply Hp. left. assumption.
    + rewrite IH; [reflexivity|]. intros Hin. apply Hp. now right.
Qed.

Lemma split_no_sep (sep : A) (p : list A) :
  ~ In sep p -> split sep p = [p].
Proof.
  induction p as [|c p IH]; intros Hp; [reflexivity|].
  simpl. ch_case c sep.
  - exfalso. apply Hp. now left.
  - rewrite IH; [reflexivity|]. intros Hin. apply Hp. now right.
Qed.

Lemma split_repeat_sep (sep : A) (k : nat) (r : list A) :
  split sep (repeat sep k ++ r) = repeat [] k ++ split sep r.
Proof.
  induction k as [|k IH]; [reflexivity|].
  cbn [repeat app]. now rewrite split_sep_cons, IH.
Qed.

Lemma split_pieces_no_sep (sep : A) (s : list A) :
  Forall (fun p => ~ In sep p) (split sep s).
Proof.
  induction s as [|c t IH]; simpl.
  - constructor; auto.
  - ch_case c sep.
    + constructor; auto.
    + destruct (split sep t) as [|p rest].
      * constructor; [|constructor]. intros [Hc|[]]. congruence.
      * inversion IH as [|? ? Hp Hrest]; subst. constructor; [|assumption].
        intros [Hc | Hin]; [congruence | contradiction].
Qed.

(** Splitting a joined list of separator-free pieces gives them back. *)
Lemma split_join (sep : A) (ps : list (list A)) (tail : list A) :
  ps <> [] ->
  Forall (fun p => ~ In sep p) ps ->
  split sep (str_join [sep] ps ++ sep :: tail) = ps ++ split sep tail.
Proof.
  induction ps as [|p ps IH]; intros Hne Hall; [congruence|].
  inversion Hall as [|? ? Hp Hps]; subst.
  destruct ps as [|q ps].
  - simpl. now apply split_piece_sep.
  - change (str_join [sep] (p :: q :: ps))
      with (p ++ [sep] ++ str_join [sep] (q :: ps)).
    rewrite <- !app_assoc. cbn [app].
    rewrite split_piece_sep by assumption.
    rewrite IH by (auto; discriminate). reflexivity.
Qed.

Lemma split_join_end (sep : A) (ps : list (list A)) :
  ps <> [] ->
  Forall (fun p => ~ In sep p) ps ->
  split sep (str_join [sep] ps) = ps.
Proof.
  induction ps as [|p ps IH]; intros Hne Hall; [congruence|].
  inversion Hall as [|? ? Hp Hps]; subst.
  destruct ps as [|q ps].
  - simpl. now apply split_no_sep.
  - change (str_join [sep] (p :: q :: ps))
      with (p ++ [sep] ++ str_join [sep] (q :: ps)).
    cbn [app]. rewrite split_piece_sep by assumption.
    rewrite IH by (auto; discriminate). reflexivity.
Qed.

End SplitJoin.

(** ** The first-line view *)

Lemma first_chars_defined {A : Type} `{PyChar A} (s : list A) :
  exists f, first_chars s = Some f /\ ~ In NL f.
Proof.
  unfold first_chars.
  destruct (split_cons_shape NL s) as (p & rest & E & Hp).
  rewrite E. exists p. auto.
Qed.

(** C10: for every string [raw], byte or unicode, and including the empty
    one, the first-line view is defined (indexing the split never fails) and
    the line it gives holds no newline character. *)
Theorem first_defined_without_newline :
  forall (r : pytext) (dec : bool),
    exists f, first {| raw := r; decode := dec |} = Some f
              /\ ~ text_contains "010" f.
Proof.
  intros [s|u] dec; unfold first; simpl.
  - destruct (first_chars_defined s) as (f & E & Hf).
    exists (Str f). rewrite E. auto.
  - destruct (first_chars_defined u) as (f & E & Hf).
    exists (Unicode f). rewrite E. auto.
Qed.

(** ** The line-folded view *)

Section Folding.
Context {A : Type} `{PyChar A}.

Lemma re_sub_pair (repl t : list A) :
  re_sub_nlnl repl (NL :: NL :: t) = repl ++ re_sub_nlnl repl t.
Proof. simpl. now rewrite ch_eqb_refl. Qed.

Lemma re_sub_other (repl : list A) (a : A) (r : list A) :
  a <> NL -> re_sub_nlnl repl (a :: r) = a :: re_sub_nlnl repl r.
Proof.
  intros Ha. destruct r as [|b t]; [reflexivity|].
  simpl. apply ch_eqb_neq in Ha. now rewrite Ha.
Qed.

Lemma replace_absent (old : A) (new s : list A) :
  ~ In old s -> replace old new s = s.
Proof.
  induction s as [|c t IH]; intros Hs; [reflexivity|].
  simpl. ch_case c old.
  - exfalso. apply Hs. now left.
  - f_equal. apply IH. intros Hin. apply Hs. now right.
Qed.

Lemma replace_removes (old c : A) (s : list A) :
  c <> old -> ~ In old (replace old [c] s).
Proof.
  intros Hc. induction s as [|x t IH]; simpl; [tauto|].
  ch_case x old; simpl; intros [Hx | Hin]; auto; congruence.
Qed.

(** Putting the breaks back and matching them again returns the marked
    text, when no newline was left in it. *)
Lemma re_sub_replace_marker (t : list A) :
  ~ In NL t -> re_sub_nlnl [VT] (replace VT [NL; NL] t) = t.
Proof.
  induction t as [|c t IH]; intros Ht; [reflexivity|].
  assert (Hc : c <> NL) by (intros ->; apply Ht; now left).
  assert (Ht' : ~ In NL t) by (intros Hin; apply Ht; now right).
  simpl. ch_case c VT.
  - subst c. cbn [app]. rewrite re_sub_pair. cbn [app]. now rewrite IH.
  - rewrite re_sub_other by assumption. now rewrite IH.
Qed.

Lemma full_chars_idempotent (s : list A) :
  full_chars (full_chars s) = full_chars s.
Proof.
  unfold full_chars.
  set (t := replace NL [SP] (re_sub_nlnl [VT] s)).
  assert (Ht : ~ In NL t).
  { apply replace_removes. intros E. symmetry in E. now apply NL_SP in E. }
  rewrite re_sub_replace_marker by assumption.
  now rewrite (@replace_absent NL [SP] t Ht).
Qed.

Lemma fold_lines_pair (t : list A) :
  fold_lines (NL :: NL :: t) = NL :: NL :: fold_lines t.
Proof. simpl. now rewrite ch_eqb_refl. Qed.

Lemma fold_lines_other (a : A) (r : list A) :
  a <> NL -> fold_lines (a :: r) = a :: fold_lines r.
Proof.
  intros Ha. apply ch_eqb_neq in Ha.
  destruct r as [|b t]; simpl; now rewrite Ha.
Qed.

Lemma fold_lines_single (b : A) (t : list A) :
  b <> NL -> fold_lines (NL :: b :: t) = SP :: fold_lines (b :: t).
Proof.
  intros Hb. apply ch_eqb_neq in Hb.
  change (fold_lines (NL :: b :: t))
    with (if ch_eqb NL NL && ch_eqb b NL then NL :: NL :: fold_lines t
          else (if ch_eqb NL NL then SP else NL) :: fold_lines (b :: t)).
  now rewrite ch_eqb_refl, Hb.
Qed.

Lemma replace_hit (old : A) (new t : list A) :
  replace old new (old :: t) = new ++ replace old new t.
Proof. simpl. now rewrite ch_eqb_refl. Qed.

Lemma replace_miss (old c : A) (new t : list A) :
  c <> old -> replace old new (c :: t) = c :: replace old new t.
Proof. intros Hc. apply ch_eqb_neq in Hc. simpl. now rewrite Hc. Qed.

(** The three replacements compute the folding, on a text that does not
    already hold the marker. *)
Lemma full_chars_fold_lines (s : list A) :
  ~ In VT s -> full_chars s = fold_lines s.
Proof.
  assert (VN : (VT : A) <> NL) by (intros E; symmetry in E; now apply NL_VT in E).
  pose proof (@SP_VT A _) as SV.
  unfold full_chars.
  induction s as [| a | a b t IHt IHbt] using list_ind_pairs; intros Hs.
  - reflexivity.
  - assert (Ha : a <> VT) by (intros ->; apply Hs; now left).
    simpl re_sub_nlnl. simpl fold_lines. ch_case a NL.
    + subst a. rewrite replace_hit. cbn [app].
      now rewrite replace_miss by assumption.
    + rewrite replace_miss by assumption.
      now rewrite replace_miss by assumption.
  - assert (Ha : a <> VT) by (intros ->; apply Hs; now left).
    assert (Hbt : ~ In VT (b :: t)) by (intros Hin; apply Hs; now right).
    assert (Ht : ~ In VT t) by (intros Hin; apply Hbt; now right).
    ch_case a NL.
    + subst a. ch_case b NL.
      * subst b. rewrite re_sub_pair, fold_lines_pair. cbn [app].
        rewrite replace_miss by assumption. rewrite replace_hit. cbn [app].
        now rewrite IHt.
      * rewrite fold_lines_single by assumption.
        assert (R : re_sub_nlnl [VT] (NL :: b :: t)
                    = NL :: re_sub_nlnl [VT] (b :: t)).
        { change (re_sub_nlnl [VT] (NL :: b :: t))
            with (if ch_eqb (NL : A) NL && ch_eqb b NL
                  then [VT] ++ re_sub_nlnl [VT] t
                  else NL :: re_sub_nlnl [VT] (b :: t)).
          apply ch_eqb_neq in E. now rewrite E, andb_false_r. }
        rewrite R, replace_hit. cbn [app].
        rewrite replace_miss by assumption. now rewrite IHbt.
    + rewrite re_sub_other, fold_lines_other by assumption.
      rewrite replace_miss by assumption.
      rewrite replace_miss by assumption. now rewrite IHbt.
Qed.

End Folding.

Section Paragraphs.
Context {A : Type} `{PyChar A}.

Lemma in_str_join (c : A) (sep : list A) (ps : list (list A)) :
  In c (str_join sep ps) -> In c sep \/ exists p, In p ps /\ In c p.
Proof.
  induction ps as [|p ps IH]; [intros []|].
  destruct ps as [|q ps].
  - simpl. intros Hin. right. exists p. auto.
  - change (str_join sep (p :: q :: ps))
      with (p ++ sep ++ str_join sep (q :: ps)).
    rewrite !in_app_iff. intros [Hp | [Hs | Hr]].
    + right. exists p. split; [now left | assumption].
    + now left.
    + destruct (IH Hr) as [Hs | (x & Hx & Hc)]; [now left|].
      right. exists x. split; [now right | assumption].
Qed.

Lemma str_join_two (sep p q : list A) (ps : list (list A)) :
  str_join sep (p :: q :: ps) = p ++ sep ++ str_join sep (q :: ps).
Proof. reflexivity. Qed.

Lemma str_join_head (sep : list A) (b : A) (l : list A) (ps : list (list A)) :
  exists r, str_join sep ((b :: l) :: ps) = b :: r.
Proof. destruct ps; simpl; eauto. Qed.

Lemma fold_lines_line (l r : list A) :
  ~ In NL l -> fold_lines (l ++ r) = l ++ fold_lines r.
Proof.
  induction l as [|a l IH]; intros Hl; [reflexivity|].
  cbn [app]. rewrite fold_lines_other.
  - f_equal. apply IH. intros Hin. apply Hl. now right.
  - intros ->. apply Hl. now left.
Qed.

Lemma fold_lines_paragraph (para : list (list A)) (r : list A) :
  plain_paragraph para ->
  fold_lines (str_join [NL] para ++ r) = str_join [SP] para ++ fold_lines r.
Proof.
  intros [Hne Hall]. induction para as [|l para IH]; [congruence|].
  inversion Hall as [|? ? (Hl & Hnl & _) Hrest]; subst.
  destruct para as [|l2 rest].
  - simpl. now apply fold_lines_line.
  - rewrite !str_join_two, <- !app_assoc. cbn [app].
    rewrite fold_lines_line by assumption. f_equal.
    inversion Hrest as [|? ? (Hl2 & Hnl2 & _) _]; subst.
    destruct l2 as [|b l2]; [congruence|].
    destruct (str_join_head [NL] b l2 rest) as (j & Ej).
    rewrite <- IH by (auto; discriminate).
    rewrite Ej. cbn [app]. apply fold_lines_single.
    intros ->. apply Hnl2. now left.
Qed.

Lemma fold_lines_paragraphs (ps : list (list (list A))) :
  Forall plain_paragraph ps ->
  fold_lines (paragraphs_text ps) = folded_text ps.
Proof.
  unfold paragraphs_text, folded_text.
  induction ps as [|p ps IH]; intros Hall; [reflexivity|].
  inversion Hall as [|? ? Hp Hps]; subst.
  destruct ps as [|q ps].
  - simpl. rewrite <- (app_nil_r (str_join [NL] p)).
    rewrite fold_lines_paragraph by assumption. simpl. apply app_nil_r.
  - cbn [map]. rewrite !str_join_two. cbn [app].
    rewrite fold_lines_paragraph by assumption.
    rewrite fold_lines_pair. cbn [map] in IH. now rewrite IH.
Qed.

Lemma paragraphs_text_no_marker (ps : list (list (list A))) :
  Forall plain_paragraph ps -> ~ In VT (paragraphs_text ps).
Proof.
  intros Hall Hin. unfold paragraphs_text in Hin.
  apply in_str_join in Hin. destruct Hin as [Hsep | (j & Hj & Hin)].
  - destruct Hsep as [E | [E | []]]; now apply NL_VT in E.
  - apply in_map_iff in Hj. destruct Hj as (para & <- & Hpara).
    rewrite Forall_forall in Hall. destruct (Hall _ Hpara) as [_ Hlines].
    apply in_str_join in Hin. destruct Hin as [Hsep | (l & Hl & Hin)].
    + destruct Hsep as [E | []]. now apply NL_VT in E.
    + rewrite Forall_forall in Hlines.
      destruct (Hlines _ Hl) as (_ & _ & Hvt). contradiction.
Qed.

Lemma full_chars_paragraphs (ps : list (list (list A))) :
  Forall plain_paragraph ps ->
  full_chars (paragraphs_text ps) = folded_text ps.
Proof.
  intros Hall. rewrite full_chars_fold_lines.
  - now apply fold_lines_paragraphs.
  - now apply paragraphs_text_no_marker.
Qed.

End Paragraphs.

(** C7: the full view turns every single newline into one blank and keeps
    every blank-line break as a break. On any text without the marker
    character it is the left-to-right folding [fold_lines]; on a text laid
    out in paragraphs, the lines of a paragraph end up joined by blanks and
    the paragraphs stay separated by a blank line; and the example of the
    specification folds as stated. *)
Theorem full_folds_single_newlines :
  (forall d : Documentation,
      ~ text_contains "011" (raw d) -> full d = fold_lines_text (raw d))
  /\ (forall ps : list (list (list ascii)),
        Forall plain_paragraph ps ->
        full (cls (Str (paragraphs_text ps))) = Str (folded_text ps))
  /\ (forall ps : list (list (list N)),
        Forall plain_paragraph ps ->
        full (cls (Unicode (paragraphs_text ps))) = Unicode (folded_text ps))
  /\ full (cls (Str (py "Line one" ++ [NL] ++ py "still one." ++ [NL; NL]
                       ++ py "New para.")))
     = Str (py "Line one still one." ++ [NL; NL] ++ py "New para.").
Proof.
  repeat split.
  - intros [[s|u] dec] Hd; unfold full; simpl in *; f_equal;
      now apply full_chars_fold_lines.
  - intros ps Hps. unfold full. simpl. f_equal. now apply full_chars_paragraphs.
  - intros ps Hps. unfold full. simpl. f_equal. now apply full_chars_paragraphs.
Qed.

(** A concrete instance: two paragraphs, the first of two lines. *)
Lemma full_folds_single_newlines_witness :
  full (cls (Str (paragraphs_text [[py "a"; py "b"]; [py "c"]])))
  = Str (py "a b" ++ [NL; NL] ++ py "c")
  /\ full (cls (Str (py "a" ++ [NL] ++ py "b")))
     = fold_lines_text (Str (py "a" ++ [NL] ++ py "b")).
Proof.
  split.
  - apply (proj1 (proj2 full_folds_single_newlines)
             [[py "a"; py "b"]; [py "c"]]).
    repeat constructor; try discriminate;
      simpl; intros [E | []]; discriminate.
  - apply (proj1 full_folds_single_newlines
             (cls (Str (py "a" ++ [NL] ++ py "b")))).
    simpl. intros [E | [E | [E | []]]]; discriminate.
Defined.

(** C9: the full view is idempotent. Folding the folded text again changes
    nothing, whatever the raw text: the first folding leaves newlines only in
    pairs, and the second finds exactly those pairs. *)
Theorem full_idempotent :
  forall (d : Documentation) (dec : bool),
    full {| raw := full d; decode := dec |} = full d.
Proof.
  intros [[s|u] dec0] dec; unfold full; simpl; f_equal;
    apply full_chars_idempotent.
Qed.

(** ** [cleandoc] on a uniformly indented docstring *)

Section Cleandoc.
Context {A : Type} `{PyChar A}.

Lemma expandtabs_no_tab (tabsize j : nat) (s : list A) :
  ~ In TAB s -> expandtabs_at tabsize j s = s.
Proof.
  revert j. induction s as [|c t IH]; intros j Hs; [reflexivity|].
  simpl. ch_case c TAB.
  - exfalso. apply Hs. now left.
  - f_equal. apply IH. intros Hin. apply Hs. now right.
Qed.

Lemma in_blank (c : A) (w : nat) : In c (blank w) -> c = SP.
Proof. intros Hin. apply repeat_spec in Hin. assumption. Qed.

Lemma indent_no_char (c : A) (w : nat) (l : list A) :
  c <> SP -> ~ In c l -> ~ In c (indent w l).
Proof.
  intros Hc Hl Hin. unfold indent in Hin. apply in_app_iff in Hin.
  destruct Hin as [Hin | Hin]; [apply in_blank in Hin|]; contradiction.
Qed.

(** No source line holds a character that is neither a blank nor in the
    body. *)
Lemma source_lines_no_char (c : A) (w0 : nat) (lead trail : list nat)
    (body : list (nat * list A)) :
  c <> SP ->
  Forall (fun wl => ~ In c (snd wl)) body ->
  Forall (fun l => ~ In c l)
    (blank w0 :: map blank lead ++ map src_line body ++ map blank trail).
Proof.
  intros Hc Hbody.
  assert (Hblank : forall ws, Forall (fun l => ~ In c l) (map blank ws)).
  { intros ws. apply Forall_forall. intros l Hl Hin.
    apply in_map_iff in Hl. destruct Hl as (w & <- & _).
    apply in_blank in Hin. contradiction. }
  constructor.
  - intros Hin. apply in_blank in Hin. contradiction.
  - rewrite !Forall_app. repeat split; auto.
    apply Forall_forall. intros l Hl.
    apply in_map_iff in Hl. destruct Hl as (wl & <- & Hwl).
    rewrite Forall_forall in Hbody. apply indent_no_char; auto.
Qed.

Lemma lstrip_indent (w : nat) (l : list A) :
  match l with [] => True | c :: _ => isspace c = false end ->
  lstrip (indent w l) = l.
Proof.
  intros Hl. unfold lstrip, indent, blank.
  induction w as [|w IH]; simpl.
  - destruct l as [|c l]; [reflexivity|]. simpl. now rewrite Hl.
  - unfold SP at 1. now rewrite isspace_blank.
Qed.

Lemma lstrip_blank (w : nat) : lstrip (blank w) = [].
Proof.
  rewrite <- (app_nil_r (blank w)). now apply (lstrip_indent w []).
Qed.

Lemma slice_from_indent (n : nat) (l : list A) :
  slice_from (Z.of_nat n) (indent n l) = l.
Proof.
  unfold slice_from, indent, blank. rewrite Nat2Z.id.
  induction n as [|n IH]; [reflexivity | exact IH].
Qed.

Lemma slice_from_blank (n w : nat) :
  w <= n -> slice_from (Z.of_nat n) (blank w) = [].
Proof.
  intros Hw. unfold slice_from, blank. rewrite Nat2Z.id.
  apply skipn_all2. now rewrite repeat_length.
Qed.

Lemma slice_from_src_line (n : nat) (wl : nat * list A) :
  body_line n wl -> slice_from (Z.of_nat n) (src_line wl) = snd wl.
Proof.
  destruct wl as [w [|c l]]; unfold src_line; intros (_ & _ & Hw);
    cbn [fst snd] in *.
  - unfold indent. rewrite app_nil_r. now apply slice_from_blank.
  - destruct Hw as [-> _]. apply slice_from_indent.
Qed.

Lemma margin_step_blank (m : Z) (w : nat) : margin_step m (blank w) = m.
Proof. unfold margin_step. now rewrite lstrip_blank. Qed.

Lemma margin_step_src_line (m : Z) (n : nat) (wl : nat * list A) :
  body_line n wl ->
  margin_step m (src_line wl)
  = if isempty (snd wl) then m else Z.min m (Z.of_nat n).
Proof.
  destruct wl as [w [|c l]]; unfold src_line; intros (_ & _ & Hw);
    cbn [fst snd isempty] in *.
  - unfold indent. rewrite app_nil_r. apply margin_step_blank.
  - destruct Hw as [-> Hc]. unfold margin_step.
    rewrite lstrip_indent by assumption.
    unfold indent, blank. rewrite length_app, repeat_length.
    replace (Z.of_nat (length (c :: l)) =? 0)%Z with false
      by (symmetry; apply Z.eqb_neq; simpl length; lia).
    f_equal. lia.
Qed.

Lemma fold_margin_blanks (m : Z) (ws : list nat) :
  fold_left margin_step (map blank ws) m = m.
Proof.
  induction ws as [|w ws IH]; [reflexivity|].
  cbn [map fold_left]. now rewrite margin_step_blank.
Qed.

Lemma fold_margin_stable (n : nat) (body : list (nat * list A)) :
  Forall (body_line n) body ->
  fold_left margin_step (map src_line body) (Z.of_nat n) = Z.of_nat n.
Proof.
  induction 1 as [|wl body Hl Hls IH]; [reflexivity|].
  cbn [map fold_left]. rewrite (margin_step_src_line _ Hl).
  destruct (isempty (snd wl)); [exact IH|]. now rewrite Z.min_id.
Qed.

Lemma fold_margin_body (n : nat) (body : list (nat * list A)) :
  (Z.of_nat n < sys_maxint)%Z ->
  docstring_body n body ->
  fold_left margin_step (map src_line body) sys_maxint = Z.of_nat n.
Proof.
  intros Hn (Hall & Hhd & _).
  destruct body as [|wl body]; [now elim Hhd|].
  inversion Hall as [|? ? Hl Hls]; subst.
  cbn [map fold_left]. rewrite (margin_step_src_line _ Hl).
  simpl in Hhd. destruct (snd wl) as [|c l]; [now elim Hhd|]. cbn [isempty].
  rewrite Z.min_r by lia. now apply fold_margin_stable.
Qed.

Lemma map_slice_blanks (n : nat) (ws : list nat) :
  Forall (fun w => w <= n) ws ->
  map (slice_from (Z.of_nat n)) (map blank ws) = repeat [] (length ws).
Proof.
  induction 1 as [|w ws Hw Hws IH]; [reflexivity|].
  cbn [map length repeat]. now rewrite slice_from_blank, IH.
Qed.

Lemma map_slice_body (n : nat) (body : list (nat * list A)) :
  Forall (body_line n) body ->
  map (slice_from (Z.of_nat n)) (map src_line body) = map snd body.
Proof.
  induction 1 as [|wl body Hl Hls IH]; [reflexivity|].
  cbn [map]. now rewrite slice_from_src_line, IH.
Qed.

Lemma dropwhile_empties (k : nat) (ls : list (list A)) :
  dropwhile isempty (repeat [] k ++ ls) = dropwhile isempty ls.
Proof. induction k as [|k IH]; [reflexivity | exact IH]. Qed.

Lemma dropwhile_content (ls r : list (list A)) :
  hd [] ls <> [] -> dropwhile isempty (ls ++ r) = ls ++ r.
Proof.
  destruct ls as [|[|c l] ls]; simpl; intros Hhd; congruence.
Qed.

Lemma hd_rev_last (ls : list (list A)) : hd [] (rev ls) = last ls [].
Proof.
  induction ls as [|l ls IH] using rev_ind; [reflexivity|].
  now rewrite rev_app_distr, last_last.
Qed.

Lemma rev_repeat (X : Type) (x : X) (k : nat) :
  rev (repeat x k) = repeat x k.
Proof.
  induction k as [|k IH]; [reflexivity|].
  simpl. rewrite IH. symmetry. apply repeat_cons.
Qed.

Lemma indented_doc_no_tab (w0 : nat) (lead trail : list nat)
    (body : list (nat * list A)) :
  Forall (fun wl => ~ In TAB (snd wl)) body ->
  ~ In TAB (indented_doc w0 lead body trail).
Proof.
  assert (TN : (TAB : A) <> NL) by (apply ch_neq; discriminate).
  assert (TS : (TAB : A) <> SP) by (apply ch_neq; discriminate).
  intros Hall Hin. unfold indented_doc in Hin.
  apply in_str_join in Hin. destruct Hin as [[E | []] | (l & Hl & Hin)].
  - now apply TN.
  - pose proof (source_lines_no_char w0 lead trail TS Hall) as Hno.
    rewrite Forall_forall in Hno. now apply (Hno l).
Qed.

(** [cleandoc] gives back the body, its lines joined by newlines. *)
Lemma cleandoc_indented (w0 n : nat) (lead trail : list nat)
    (body : list (nat * list A)) :
  (Z.of_nat n < sys_maxint)%Z ->
  Forall (fun w => w <= n) lead ->
  Forall (fun w => w <= n) trail ->
  docstring_body n body ->
  cleandoc (indented_doc w0 lead body trail) = str_join [NL] (map snd body).
Proof.
  intros Hn Hlead Htrail Hbody. pose proof Hbody as (Hall & Hhd & Hlast).
  assert (Hnl : Forall (fun wl : nat * list A => ~ In NL (snd wl)) body).
  { eapply Forall_impl; [|exact Hall]. now intros l (Hl & _). }
  assert (Htab : Forall (fun wl : nat * list A => ~ In TAB (snd wl)) body).
  { eapply Forall_impl; [|exact Hall]. now intros l (_ & Hl & _). }
  unfold cleandoc, expandtabs.
  rewrite expandtabs_no_tab by now apply indented_doc_no_tab.
  unfold indented_doc.
  rewrite split_join_end;
    [| discriminate | apply source_lines_no_char; [apply NL_SP | assumption]].
  cbn [tl].
  rewrite !fold_left_app, !fold_margin_blanks.
  rewrite (fold_margin_body Hn Hbody).
  replace (Z.of_nat n <? sys_maxint)%Z with true
    by (symmetry; now apply Z.ltb_lt).
  rewrite lstrip_blank.
  rewrite !map_app, !map_slice_blanks, map_slice_body by assumption.
  set (ls := map snd body) in *.
  change ([] :: repeat [] (length lead) ++ ls ++ repeat [] (length trail))
    with (repeat ([] : list A) (S (length lead))
          ++ ls ++ repeat [] (length trail)).
  rewrite !rev_app_distr, !rev_repeat, <- app_assoc.
  rewrite dropwhile_empties.
  rewrite dropwhile_content by now rewrite hd_rev_last.
  rewrite rev_app_distr, rev_involutive, rev_repeat.
  rewrite dropwhile_empties, <- (app_nil_r ls) at 1.
  rewrite dropwhile_content by assumption. now rewrite app_nil_r.
Qed.

End Cleandoc.

(** ** [cleandoc] on any docstring with uniform indentation *)

Section DropwhileFacts.
Context {X : Type}.

Lemma dropwhile_incl (p : X -> bool) (s : list X) (x : X) :
  In x (dropwhile p s) -> In x s.
Proof.
  induction s as [|c s IH]; simpl; [tauto|].
  destruct (p c); [right; auto | trivial].
Qed.

Lemma dropwhile_Forall (P : X -> Prop) (p : X -> bool) (s : list X) :
  Forall P s -> Forall P (dropwhile p s).
Proof.
  rewrite !Forall_forall. intros Hs x Hx. apply Hs.
  now apply dropwhile_incl in Hx.
Qed.

Lemma dropwhile_head (p : X -> bool) (s : list X) (c : X) (t : list X) :
  dropwhile p s = c :: t -> p c = false.
Proof.
  induction s as [|x s IH]; simpl; [discriminate|].
  destruct (p x) eqn:E; [exact IH|].
  intros E'. injection E' as -> _. exact E.
Qed.

Lemma dropwhile_keeps_last (p : X -> bool) (s : list X) (d : X) :
  s <> [] -> p (last s d) = false ->
  dropwhile p s <> [] /\ last (dropwhile p s) d = last s d.
Proof.
  induction s as [|x s IH]; [congruence|]. intros _ Hlast.
  simpl dropwhile. destruct (p x) eqn:E; [|split; [discriminate | reflexivity]].
  destruct s as [|y s].
  - simpl in Hlast. congruence.
  - apply IH; [discriminate | exact Hlast].
Qed.

End DropwhileFacts.

Section CleandocUniform.
Context {A : Type} `{PyChar A}.














End CleandocUniform.

(** ** Construction of a [Documentation] *)

Section ConstructionFacts.
Variable decode_utf8 : list ascii -> option (list N).
Variable fix_encoding : list N -> list N.




(** With a docstring, construction starts by cleaning it. *)
Lemma fromObject_with_doc (obj : PyObject) (s : pytext) (dec : option bool) :
  __doc__ obj = Some s ->
  exists calls r,
    fromObject decode_utf8 fix_encoding obj dec
    = (Call_cleandoc s :: calls, r).
Proof.
  intros Hs. unfold fromObject, fromString. rewrite Hs.
  destruct s as [b|u]; simpl; [|eauto].
  destruct (truthy dec); simpl; [|eauto].
  unfold str_decode_utf8. destruct (decode_utf8 (cleandoc b)); simpl; eauto.
Qed.

End ConstructionFacts.




(** C8: an object without a docstring gives an empty [Documentation]: the
    empty [str], or the empty [unicode] when [decode] is set; its first and
    full views are that empty string; and no library call is made on the way
    (no cleaning, no decoding, no repair), whatever [decode] is. *)
Theorem fromObject_without_doc :
  forall (decode_utf8 : list ascii -> option (list N))
         (fix_encoding : list N -> list N)
         (obj : PyObject) (dec : option bool),
    __doc__ obj = None ->
    let empty := if truthy dec then Unicode [] else Str [] in
    exists d,
      fromObject decode_utf8 fix_encoding obj dec = ([], inl d)
      /\ raw d = empty
      /\ first d = Some empty
      /\ full d = empty.
Proof.
  intros decode_utf8 fix_encoding obj dec Hdoc empty.
  unfold fromObject. rewrite Hdoc. eexists. split; [reflexivity|].
  subst empty. destruct (truthy dec); repeat split.
Qed.

Lemma fromObject_without_doc_witness :
  exists d,
    fromObject (fun _ => None) (fun u => u) {| __doc__ := None |} (Some true)
    = ([], inl d)
    /\ raw d = Unicode []
    /\ first d = Some (Unicode [])
    /\ full d = Unicode [].
Proof.
  apply (fromObject_without_doc (fun _ => None) (fun u => u)
           {| __doc__ := None |} (Some true)).
  reflexivity.
Defined.

(** ** The path-join call *)

Lemma join_in_order_join (base : str) (args : list str) :
  posixpath.join base args = join_in_order base args.
Proof.
  revert base. induction args as [|a rest IH]; intros base; [reflexivity|].
  simpl. apply IH.
Qed.

(** C5: calling the resolver returns the stored base path joined with each
    argument in order, and leaves the resolver and the process as they were.
    The result does not depend on the world (no file system access), and it
    is not normalized: a [..] argument stays in the result. *)
Theorem call_joins_in_order :
  (forall (st : State) (args : list str),
      __call__ args st = (inl (join_in_order (path (self st)) args), st))
  /\ (forall (w w' : World) (s : fromdir) (args : list str),
         fst (__call__ args {| world := w; self := s |})
         = fst (__call__ args {| world := w'; self := s |}))
  /\ fst (__call__ [py ".."; py "b/"]
            {| world := cory_world;
               self := {| path := py "/a"; _origDir := None |} |})
     = inl (py "/a/../b/").
Proof.
  repeat split.
  intros st args. unfold __call__, bind, get_path, ret.
  now rewrite join_in_order_join.
Qed.

(** ** Scoped activation *)

Lemma enter_run (st : State) :
  let recorded := {| path := path (self st);
                     _origDir := Some (cwd (world st)) |} in
  __enter__ st
  = match dir_lookup (world st) (cwd (world st)) (path (self st)) with
    | Some d => (inl recorded,
                 {| world := set_cwd d (world st); self := recorded |})
    | None => (inr OSError, {| world := world st; self := recorded |})
    end.
Proof.
  unfold __enter__, bind, os_getcwd, set_origDir, get_path, os_chdir. simpl.
  destruct (dir_lookup (world st) (cwd (world st)) (path (self st)));
    reflexivity.
Qed.

Lemma exit_run (exc : option exn) (st : State) (d d' : str) :
  _origDir (self st) = Some d ->
  dir_lookup (world st) (cwd (world st)) d = Some d' ->
  __exit__ exc st
  = (inl false, {| world := set_cwd d' (world st); self := self st |}).
Proof.
  intros Hrec Hdir.
  unfold __exit__, bind, get_origDir, os_chdir, ret.
  rewrite Hrec. simpl. now rewrite Hdir.
Qed.

(** The claim as stated (C3), refuted: it does not hold for every body. A
    body that enters the same resolver again overwrites the recorded
    directory, and the process ends in the resolver's directory
    [/home/cory], not in the checkout it started from. *)
Lemma with_reentered_does_not_restore :
  ~ (forall (body : fromdir -> M unit) (st : State),
        cwd (world (snd (with_fromdir body st))) = cwd (world st)).
Proof.
  intros Hall.
  specialize (Hall (fun _ => with_fromdir (fun _ => ret tt))
                {| world := cory_world;
                   self := {| path := py "/home/cory";
                              _origDir := None |} |}).
  vm_compute in Hall. discriminate.
Qed.

(** C3 (amended): when the [with] block ends, the working directory of the
    process is the one recorded on entry, whether the body returned or
    raised, provided the body left the resolver's record of the directory
    alone (it did not enter the same resolver again) and the recorded
    directory can still be entered when the block ends; the outcome of the
    block is then the outcome of the body. When [__enter__] itself fails the
    body does not run and the directory has not moved. *)
Theorem with_restores_cwd :
  forall (body : fromdir -> M unit) (st : State),
    (forall x st1 r st2,
        __enter__ st = (inl x, st1) ->
        body x st1 = (r, st2) ->
        _origDir (self st2) = _origDir (self st1)
        /\ dir_lookup (world st2) (cwd (world st2)) (cwd (world st))
           = Some (cwd (world st))) ->
    cwd (world (snd (with_fromdir body st))) = cwd (world st)
    /\ fst (with_fromdir body st)
       = match __enter__ st with
         | (inl x, st1) => fst (body x st1)
         | (inr e, _) => inr e
         end.
Proof.
  intros body st Hbody.
  unfold with_fromdir, bind.
  destruct (__enter__ st) as [[x|e] st1] eqn:Eenter.
  - destruct (body x st1) as [r st2] eqn:Ebody.
    destruct (Hbody x st1 r st2 eq_refl Ebody) as [Hkeep Hdir].
    assert (Hrec : _origDir (self st1) = Some (cwd (world st))).
    { rewrite enter_run in Eenter.
      destruct (dir_lookup (world st) (cwd (world st)) (path (self st)));
        inversion Eenter; reflexivity. }
    rewrite Hrec in Hkeep.
    destruct r as [[]|e];
      rewrite (exit_run _ st2 Hkeep Hdir); simpl; auto.
  - rewrite enter_run in Eenter.
    destruct (dir_lookup (world st) (cwd (world st)) (path (self st)));
      inversion Eenter; subst; simpl; auto.
Qed.

(** The block entered from the checkout with a resolver for [/home/cory]:
    the body moves elsewhere and fails; the error comes out and the process
    is back in the checkout. *)
Lemma with_restores_cwd_witness :
  let st := {| world := cory_world;
               self := {| path := py "/home/cory"; _origDir := None |} |} in
  cwd (world (snd (with_fromdir failing_body st)))
  = py "/home/cory/src/Codado"
  /\ fst (with_fromdir failing_body st) = inr (UserError 7).
Proof.
  intros st.
  apply (with_restores_cwd failing_body st).
  intros x st1 r st2 Eenter Ebody.
  vm_compute in Eenter. inversion Eenter; subst x st1; clear Eenter.
  vm_compute in Ebody. inversion Ebody; subst r st2; clear Ebody.
  split; reflexivity.
Defined.

(** ** Construction of a resolver *)

Lemma init_snoc (w : World) (paths : list str) (cur : str) :
  path (__init__ w (paths ++ [cur]))
  = init_step w (path (__init__ w paths)) cur.
Proof. unfold __init__. simpl. now rewrite fold_left_app. Qed.

(** C1: the file check follows every join. The path stored for the
    fragments [paths ++ [cur]] is obtained from the path stored for [paths]
    by one join with [cur] and one check: if the joined path is an existing
    regular file, the containing directory replaces it. So with two
    fragments that both reach a file only the directory survives (the
    docstring's [fromdir(__file__, 'tx.py')]), and a fragment after a file
    is joined to the directory of that file, where a single check at the end
    would have kept the file name inside the path. *)
Theorem init_checks_file_after_every_join :
  (forall (w : World) (paths : list str) (cur : str),
      let joined :=
        posixpath.abspath w
          (posixpath.join (path (__init__ w paths))
             [posixpath.expanduser w cur]) in
      path (__init__ w (paths ++ [cur]))
      = if posixpath.isfile w joined then _sibpath w joined (py "")
        else joined)
  /\ path (__init__ cory_world [codado_file; py "tx.py"])
     = py "/home/cory/src/Codado/codado/"
  /\ fst (__call__ [py "py.py"]
            {| world := cory_world;
               self := __init__ cory_world [codado_file; py "tx.py"] |})
     = inl (py "/home/cory/src/Codado/codado/py.py")
  /\ path (__init__ cory_world [codado_file; py "test"])
     = py "/home/cory/src/Codado/codado/test"
  /\ init_check_at_end cory_world [codado_file; py "test"]
     = py "/home/cory/src/Codado/codado/__init__.py/test".
Proof.
  split; [|repeat split; vm_compute; reflexivity].
  intros w paths cur joined. rewrite init_snoc. reflexivity.
Qed.

(** ** Absolute paths *)

Lemma isabs_cons (s : str) :
  posixpath.isabs s = true <-> exists r, s = "/"%char :: r.
Proof.
  unfold posixpath.isabs. destruct s as [|c r]; simpl.
  - split; [discriminate | intros (r & E); discriminate].
  - rewrite andb_true_r. split.
    + intros E. apply Ascii.eqb_eq in E. subst c. eauto.
    + intros (r' & E). injection E as -> _. reflexivity.
Qed.

Lemma join_step_isabs (a b : str) :
  posixpath.isabs a = true -> posixpath.isabs (posixpath.join_step a b) = true.
Proof.
  intros Ha. unfold posixpath.join_step.
  destruct (startswith b (py "/")) eqn:Eb; [exact Eb|].
  apply isabs_cons in Ha. destruct Ha as (r & ->).
  destruct (isempty _ || endswith _ _); reflexivity.
Qed.

Lemma normpath_isabs (p : str) :
  posixpath.isabs p = true -> posixpath.isabs (posixpath.normpath p) = true.
Proof.
  intros Hp. apply isabs_cons in Hp. destruct Hp as (r & ->).
  unfold posixpath.normpath. cbn [isempty].
  change (startswith ("/"%char :: r) (py "/")) with true. cbv iota.
  destruct (startswith _ (py "//") && negb (startswith _ (py "///")));
    reflexivity.
Qed.

Lemma abspath_isabs (w : World) (p : str) :
  posixpath.isabs (cwd w) = true ->
  posixpath.isabs (posixpath.abspath w p) = true.
Proof.
  intros Hcwd. unfold posixpath.abspath. apply normpath_isabs.
  destruct (posixpath.isabs p) eqn:Ep; simpl; [assumption|].
  now apply join_step_isabs.
Qed.

Section Rstrip.
Context {A : Type} `{PyChar A}.

Lemma dropwhile_snoc (p : A -> bool) (l : list A) (x : A) :
  dropwhile p (l ++ [x])
  = match dropwhile p l with
    | [] => dropwhile p [x]
    | r => r ++ [x]
    end.
Proof.
  induction l as [|c l IH]; [reflexivity|].
  simpl. destruct (p c); [exact IH | reflexivity].
Qed.

Lemma rstrip_char_cons (c x : A) (s : list A) :
  rstrip_char c (x :: s)
  = match rstrip_char c s with
    | [] => if ch_eqb x c then [] else [x]
    | r => x :: r
    end.
Proof.
  unfold rstrip_char. simpl rev. rewrite dropwhile_snoc.
  destruct (dropwhile _ (rev s)) as [|y r] eqn:E.
  - simpl. now destruct (ch_eqb x c).
  - rewrite rev_app_distr. simpl rev at 1. cbn [app].
    destruct (rev (y :: r)) eqn:E'; [|reflexivity].
    apply (f_equal (@rev A)) in E'. rewrite rev_involutive in E'.
    discriminate.
Qed.

Lemma rstrip_char_nil (c : A) (s : list A) :
  rstrip_char c s = [] -> s = repeat c (length s).
Proof.
  induction s as [|x s IH]; [reflexivity|].
  rewrite rstrip_char_cons.
  destruct (rstrip_char c s) as [|y r]; [|discriminate].
  ch_case x c; [|discriminate].
  intros _. simpl. subst x. f_equal. now apply IH.
Qed.

Lemma rfind_head (c : A) (s : list A) : (0 <= rfind c (c :: s))%Z.
Proof.
  simpl. destruct (0 <=? rfind c s)%Z eqn:E.
  - apply Z.leb_le in E. lia.
  - rewrite ch_eqb_refl. lia.
Qed.

End Rstrip.

Lemma dirname_isabs (p : str) :
  posixpath.isabs p = true -> posixpath.isabs (posixpath.dirname p) = true.
Proof.
  intros Hp. apply isabs_cons in Hp. destruct Hp as (r & ->).
  unfold posixpath.dirname.
  pose proof (rfind_head SLASH r) as Hi.
  change ("/"%char) with (SLASH : ascii).
  set (i := (rfind SLASH (SLASH :: r) + 1)%Z).
  assert (Ei : exists m, Z.to_nat i = S m).
  { exists (Z.to_nat (i - 1)). subst i. lia. }
  destruct Ei as (m & Em). unfold slice_to. rewrite Em. cbn [firstn].
  set (h := firstn m r).
  destruct (negb (isempty (SLASH :: h))
            && negb (str_eqb (SLASH :: h)
                       (repeat SLASH (length (SLASH :: h))))) eqn:Ec;
    [|reflexivity].
  apply andb_true_iff in Ec. destruct Ec as [_ Ec].
  apply negb_true_iff, str_eqb_neq in Ec.
  rewrite rstrip_char_cons.
  destruct (rstrip_char SLASH h) as [|y t] eqn:Er; [|reflexivity].
  exfalso. apply Ec. simpl. f_equal. now apply rstrip_char_nil.
Qed.

Lemma sibpath_isabs (w : World) (p sibling : str) :
  posixpath.isabs (cwd w) = true ->
  posixpath.isabs (_sibpath w p sibling) = true.
Proof.
  intros Hcwd. unfold _sibpath, posixpath.join. simpl.
  apply join_step_isabs, dirname_isabs. now apply abspath_isabs.
Qed.

Lemma init_step_isabs (w : World) (acc cur : str) :
  posixpath.isabs (cwd w) = true ->
  posixpath.isabs (init_step w acc cur) = true.
Proof.
  intros Hcwd. unfold init_step.
  destruct (posixpath.isfile w _).
  - now apply sibpath_isabs.
  - now apply abspath_isabs.
Qed.

(** The claim as stated (C4), refuted: a resolver built from no fragment
    stores the empty string, which is not an absolute path. *)
Lemma init_no_fragment_not_absolute :
  ~ (forall (w : World) (paths : list str),
        posixpath.isabs (path (__init__ w paths)) = true).
Proof.
  intros Hall. specialize (Hall cory_world []). discriminate.
Qed.

(** C4 (amended): in a process whose working directory is an absolute
    path, a resolver built from one or more fragments stores an absolute
    path; built from no fragment it stores the empty string. *)
Theorem init_path_absolute :
  forall (w : World) (paths : list str),
    posixpath.isabs (cwd w) = true ->
    (paths <> [] -> posixpath.isabs (path (__init__ w paths)) = true)
    /\ path (__init__ w []) = py "".
Proof.
  intros w paths Hcwd. split; [|reflexivity].
  intros Hne. destruct (exists_last Hne) as (front & cur & ->).
  rewrite init_snoc. now apply init_step_isabs.
Qed.

Lemma init_path_absolute_witness :
  posixpath.isabs (path (__init__ cory_world [py "~"; py "bin/../src"])) = true
  /\ path (__init__ cory_world []) = py "".
Proof.
  destruct (init_path_absolute cory_world [py "~"; py "bin/../src"])
    as [Habs Hnone]; [reflexivity|].
  split; [apply Habs; discriminate | exact Hnone].
Defined.

(** ** [normpath] on absolute paths *)

Lemma normpath_unfold (p : str) :
  posixpath.normpath p
  = if isempty p then py "."
    else
      let path :=
        repeat SLASH (initial_slashes p)
        ++ str_join (py "/")
             (fold_left (posixpath.norm_step (initial_slashes p))
                (split SLASH p) []) in
      if isempty path then py "." else path.
Proof. reflexivity. Qed.

Lemma initial_slashes_abs (r : str) :
  initial_slashes ("/"%char :: r) = 1 \/ initial_slashes ("/"%char :: r) = 2.
Proof.
  unfold initial_slashes.
  change (startswith ("/"%char :: r) (py "/")) with true. cbv iota.
  destruct (_ && _); auto.
Qed.

Lemma Forall_removelast (X : Type) (P : X -> Prop) (l : list X) :
  Forall P l -> Forall P (removelast l).
Proof.
  induction 1 as [|x l Hx Hl IH]; [constructor|].
  simpl. destruct l; [constructor|]. constructor; assumption.
Qed.

Lemma last_in (X : Type) (l : list X) (d : X) : l <> [] -> In (last l d) l.
Proof.
  induction l as [|x l IH]; [congruence|]. intros _.
  destruct l as [|y l]; [now left|].
  right. apply IH. discriminate.
Qed.

Lemma norm_step_keeps_plain (k : nat) (acc : list str) (comp : str) :
  k <> 0 ->
  Forall plain_component acc ->
  ~ In SLASH comp ->
  Forall plain_component (posixpath.norm_step k acc comp).
Proof.
  intros Hk Hacc Hcomp. unfold posixpath.norm_step.
  destruct (str_eqb comp (py "")) eqn:E0; [assumption|].
  destruct (str_eqb comp (py ".")) eqn:E1; [assumption|].
  apply str_eqb_neq in E0, E1. cbn [orb].
  destruct (str_eqb comp (py "..")) eqn:E2.
  - cbn [negb orb].
    replace (k =? 0) with false by (symmetry; now apply Nat.eqb_neq).
    cbn [andb orb].
    destruct acc as [|a acc]; [assumption|]. cbn [isempty negb andb].
    destruct (str_eqb (last (a :: acc) []) (py "..")) eqn:E3.
    + exfalso. apply str_eqb_eq in E3.
      assert (Hin : In (last (a :: acc) []) (a :: acc))
        by (apply last_in; discriminate).
      rewrite Forall_forall in Hacc. destruct (Hacc _ Hin) as (_ & _ & Hdd & _).
      contradiction.
    + now apply Forall_removelast.
  - apply str_eqb_neq in E2. cbn [negb orb].
    apply Forall_app. split; [assumption|].
    constructor; [|constructor]. repeat split; assumption.
Qed.

Lemma fold_norm_keeps_plain (k : nat) (comps acc : list str) :
  k <> 0 ->
  Forall plain_component acc ->
  Forall (fun c => ~ In SLASH c) comps ->
  Forall plain_component (fold_left (posixpath.norm_step k) comps acc).
Proof.
  intros Hk Hacc Hcomps. revert acc Hacc.
  induction Hcomps as [|c comps Hc Hcomps IH]; intros acc Hacc; [assumption|].
  simpl. apply IH. now apply norm_step_keeps_plain.
Qed.

(** The shape of a normalized absolute path: one or two slashes, then plain
    components joined by slashes. *)
Lemma normpath_abs_shape (p : str) :
  posixpath.isabs p = true ->
  exists k comps,
    (k = 1 \/ k = 2) /\ Forall plain_component comps
    /\ posixpath.normpath p = repeat SLASH k ++ str_join (py "/") comps.
Proof.
  intros Hp. apply isabs_cons in Hp. destruct Hp as (r & ->).
  rewrite normpath_unfold. cbn [isempty].
  set (k := initial_slashes ("/"%char :: r)).
  assert (Hk : k = 1 \/ k = 2) by apply initial_slashes_abs.
  exists k, (fold_left (posixpath.norm_step k) (split SLASH ("/"%char :: r)) []).
  split; [assumption|]. split.
  - apply fold_norm_keeps_plain; [lia | constructor | apply split_pieces_no_sep].
  - cbv zeta. destruct Hk as [-> | ->]; reflexivity.
Qed.

Lemma norm_step_plain (k : nat) (acc : list str) (c : str) :
  plain_component c -> posixpath.norm_step k acc c = acc ++ [c].
Proof.
  intros (H0 & H1 & H2 & _). unfold posixpath.norm_step.
  apply str_eqb_neq in H0, H1, H2. now rewrite H0, H1, H2.
Qed.

Lemma fold_norm_plain (k : nat) (comps acc : list str) :
  Forall plain_component comps ->
  fold_left (posixpath.norm_step k) comps acc = acc ++ comps.
Proof.
  intros Hcomps. revert acc.
  induction Hcomps as [|c comps Hc Hcomps IH]; intros acc.
  - now rewrite app_nil_r.
  - simpl. rewrite norm_step_plain by assumption.
    rewrite IH, <- app_assoc. reflexivity.
Qed.

Lemma fold_norm_empties (k j : nat) (comps acc : list str) :
  fold_left (posixpath.norm_step k) (repeat [] j ++ comps) acc
  = fold_left (posixpath.norm_step k) comps acc.
Proof. induction j as [|j IH]; [reflexivity | exact IH]. Qed.

(** Joined plain components start with a character that is not a slash. *)
Lemma join_plain_head (comps : list str) :
  Forall plain_component comps ->
  comps <> [] ->
  exists c r, str_join (py "/") comps = c :: r /\ c <> "/"%char.
Proof.
  intros Hall Hne. destruct comps as [|[|c l] comps]; [congruence| |].
  - inversion Hall as [|? ? (H0 & _) _]. now elim H0.
  - destruct (str_join_head (py "/") c l comps) as (r & Er).
    exists c, r. split; [assumption|].
    inversion Hall as [|? ? (_ & _ & _ & Hs) _]. intros ->.
    apply Hs. now left.
Qed.

Lemma normpath_of_shape (k : nat) (comps : list str) :
  k = 1 \/ k = 2 ->
  Forall plain_component comps ->
  posixpath.normpath (repeat SLASH k ++ str_join (py "/") comps)
  = repeat SLASH k ++ str_join (py "/") comps.
Proof.
  intros Hk Hall.
  assert (Hnos : Forall (fun c => ~ In (SLASH : ascii) c) comps).
  { eapply Forall_impl; [|exact Hall]. now intros c (_ & _ & _ & Hc). }
  rewrite normpath_unfold.
  set (J := str_join (py "/") comps) in *.
  assert (Hinit : initial_slashes (repeat SLASH k ++ J) = k).
  { destruct comps as [|c0 comps'] eqn:Ecomps.
    - destruct Hk as [-> | ->]; reflexivity.
    - destruct (join_plain_head Hall) as (c & r & EJ & Hc); [discriminate|].
      fold J in EJ. rewrite EJ. apply Ascii.eqb_neq in Hc.
      destruct Hk as [-> | ->]; unfold initial_slashes; simpl; now rewrite Hc. }
  rewrite Hinit.
  assert (Hsplit : fold_left (posixpath.norm_step k)
                     (split SLASH (repeat SLASH k ++ J)) [] = comps).
  { rewrite split_repeat_sep, fold_norm_empties.
    destruct comps as [|c0 comps'] eqn:Ecomps; [reflexivity|].
    unfold J. change (py "/") with [SLASH : ascii].
    rewrite split_join_end by (auto; discriminate).
    now rewrite fold_norm_plain. }
  rewrite Hsplit. fold J.
  destruct Hk as [-> | ->]; reflexivity.
Qed.

Lemma normpath_idempotent_abs (p : str) :
  posixpath.isabs p = true ->
  posixpath.normpath (posixpath.normpath p) = posixpath.normpath p.
Proof.
  intros Hp. destruct (normpath_abs_shape p Hp) as (k & comps & Hk & Hall & ->).
  now apply normpath_of_shape.
Qed.

Lemma abspath_of_abs (w : World) (p : str) :
  posixpath.isabs p = true -> posixpath.abspath w p = posixpath.normpath p.
Proof. intros Hp. unfold posixpath.abspath. now rewrite Hp. Qed.

Lemma abspath_idempotent (w : World) (p : str) :
  posixpath.isabs (cwd w) = true ->
  posixpath.abspath w (posixpath.abspath w p) = posixpath.abspath w p.
Proof.
  intros Hcwd.
  rewrite (@abspath_of_abs w (posixpath.abspath w p))
    by now apply abspath_isabs.
  unfold posixpath.abspath. apply normpath_idempotent_abs.
  destruct (posixpath.isabs p) eqn:Ep; simpl; [assumption|].
  now apply join_step_isabs.
Qed.

(** ** A resolver built from an existing file *)

Lemma join_step_empty_l (b : str) : posixpath.join_step (py "") b = b.
Proof.
  unfold posixpath.join_step. now destruct (startswith b (py "/")).
Qed.

Lemma endswith_char (s : str) (c : ascii) :
  endswith s [c] = true <-> exists s', s = s' ++ [c].
Proof.
  unfold endswith. simpl rev. split.
  - destruct (rev s) as [|x t] eqn:E; simpl; [discriminate|].
    rewrite andb_true_r. intros Hx. apply Ascii.eqb_eq in Hx. subst x.
    exists (rev t). apply (f_equal (@rev ascii)) in E.
    rewrite rev_involutive in E. exact E.
  - intros (s' & ->). rewrite rev_app_distr. simpl.
    now rewrite Ascii.eqb_refl.
Qed.

(** Joining a directory with the empty name leaves it ending in a slash. *)
Lemma join_empty_name_endswith (d : str) :
  d <> [] -> endswith (posixpath.join d [py ""]) (py "/") = true.
Proof.
  intros Hd. unfold posixpath.join, posixpath.join_step. cbn [fold_left].
  change (py "") with ([] : str). change (py "/") with ["/"%char].
  destruct d as [|c d]; [congruence|]. cbn [startswith isempty orb].
  rewrite !app_nil_r.
  destruct (endswith (c :: d) ["/"%char]) eqn:E; [exact E|].
  apply endswith_char. exists (c :: d). reflexivity.
Qed.

Lemma join_ends_with_last (sep : str) (comps : list str) :
  comps <> [] -> exists front, str_join sep comps = front ++ last comps [].
Proof.
  induction comps as [|c comps IH]; [congruence|]. intros _.
  destruct comps as [|c2 comps].
  - exists []. reflexivity.
  - destruct IH as (front & E); [discriminate|].
    exists (c ++ sep ++ front).
    change (str_join sep (c :: c2 :: comps))
      with (c ++ sep ++ str_join sep (c2 :: comps)).
    rewrite E, <- !app_assoc. reflexivity.
Qed.

(** A normalized absolute path with at least one component does not end in
    a slash. *)
Lemma shape_not_endswith_slash (k : nat) (comps : list str) :
  Forall plain_component comps ->
  comps <> [] ->
  endswith (repeat SLASH k ++ str_join (py "/") comps) (py "/") = false.
Proof.
  intros Hall Hne.
  destruct (endswith _ (py "/")) eqn:E; [|reflexivity]. exfalso.
  apply endswith_char in E. destruct E as (s' & E).
  destruct (join_ends_with_last (py "/") Hne) as (front & EJ).
  rewrite EJ in E.
  assert (Hlast : plain_component (last comps [])).
  { rewrite Forall_forall in Hall. apply Hall. now apply last_in. }
  destruct Hlast as (Hnonempty & _ & _ & Hnoslash).
  destruct (exists_last Hnonempty) as (l' & x & El).
  rewrite El in E, Hnoslash. rewrite !app_assoc in E.
  apply app_inj_tail in E. destruct E as [_ Ex].
  apply Hnoslash. rewrite in_app_iff. right. left. exact Ex.
Qed.

Lemma init_single (w : World) (p : str) :
  path (__init__ w [p])
  = let file := posixpath.abspath w (posixpath.expanduser w p) in
    if posixpath.isfile w file then _sibpath w file (py "") else file.
Proof.
  unfold __init__, init_step. cbn [path fold_left].
  change (posixpath.join (py "") [posixpath.expanduser w p])
    with (posixpath.join_step (py "") (posixpath.expanduser w p)).
  now rewrite join_step_empty_l.
Qed.

(** C2: a resolver built from the single fragment [p], where [p] (after
    home expansion, made absolute) is an existing regular file, and called
    with no argument, returns the directory part of that absolute path joined
    with the empty name: the containing directory, ending in a slash. It is
    not the file path itself (the two could only coincide at a root, [/] or
    [//]). The call leaves the state as it was. *)
Theorem init_from_file_gives_directory :
  forall (w : World) (p : str),
    posixpath.isabs (cwd w) = true ->
    let file := posixpath.abspath w (posixpath.expanduser w p) in
    posixpath.isfile w file = true ->
    let st := {| world := w; self := __init__ w [p] |} in
    let dir := posixpath.join (posixpath.dirname file) [py ""] in
    __call__ [] st = (inl dir, st)
    /\ endswith dir (py "/") = true
    /\ (dir = file -> file = py "/" \/ file = py "//").
Proof.
  intros w p Hcwd file Hfile st dir.
  assert (Hfabs : posixpath.isabs file = true)
    by (unfold file; now apply abspath_isabs).
  assert (Hends : endswith dir (py "/") = true).
  { apply join_empty_name_endswith.
    pose proof (dirname_isabs file Hfabs) as Hd.
    apply isabs_cons in Hd. destruct Hd as (r & ->). discriminate. }
  split; [|split; [exact Hends|]].
  - unfold __call__, bind, get_path, ret. subst st. cbn [self].
    rewrite init_single. cbv zeta. fold file. rewrite Hfile.
    unfold _sibpath, dir, file.
    rewrite abspath_idempotent by assumption. reflexivity.
  - intros Heq. rewrite Heq in Hends.
    assert (Hshape : exists k comps,
               (k = 1 \/ k = 2) /\ Forall plain_component comps
               /\ file = repeat SLASH k ++ str_join (py "/") comps).
    { unfold file, posixpath.abspath. apply normpath_abs_shape.
      destruct (posixpath.isabs (posixpath.expanduser w p)) eqn:Ep; simpl;
        [assumption | now apply join_step_isabs]. }
    destruct Hshape as (k & comps & Hk & Hall & Efile).
    destruct comps as [|c comps].
    + rewrite Efile. destruct Hk as [-> | ->]; auto.
    + rewrite Efile, shape_not_endswith_slash in Hends
        by (auto; discriminate).
      discriminate.
Qed.

(** The docstring's [fromdir(__file__)]: the package directory. *)
Lemma init_from_file_gives_directory_witness :
  let st := {| world := cory_world;
               self := __init__ cory_world [codado_file] |} in
  __call__ [] st = (inl (py "/home/cory/src/Codado/codado/"), st)
  /\ endswith (py "/home/cory/src/Codado/codado/") (py "/") = true
  /\ (py "/home/cory/src/Codado/codado/" = codado_file ->
      codado_file = py "/" \/ codado_file = py "//").
Proof.
  apply (init_from_file_gives_directory cory_world codado_file);
    reflexivity.
Defined.

(* ================================================================== *)
(** * Further properties of the module *)
(* ================================================================== *)

(** ** The views of [Documentation] *)

Section ViewFacts.
Context {A : Type} `{PyChar A}.

Lemma split_head_decomposes (sep : A) (s : list A) :
  exists p rest tail,
    split sep s = p :: rest /\ ~ In sep p /\ s = p ++ tail
    /\ (tail = [] \/ exists t, tail = sep :: t).
Proof.
  induction s as [|c s (p & rest & tail & E & Hp & Es & Htail)]; simpl.
  - exists [], [], []. auto.
  - ch_case c sep.
    + subst c. exists [], (split sep s), (sep :: s).
      repeat split; auto. right. eauto.
    + rewrite E. exists (c :: p), rest, tail. repeat split; auto.
      * intros [Hc | Hin]; [congruence | contradiction].
      * simpl. now rewrite <- Es.
Qed.

(** The first-line view is the text before the first newline: the raw text
    is that line followed by nothing or by a newline and the rest. *)
Theorem first_is_text_before_newline (s : list A) :
  exists f tail,
    first_chars s = Some f /\ s = f ++ tail /\ ~ In NL f
    /\ (tail = [] \/ exists t, tail = NL :: t).
Proof.
  destruct (split_head_decomposes NL s)
    as (p & rest & tail & E & Hp & Es & Htail).
  exists p, tail. unfold first_chars. rewrite E. auto.
Qed.

Lemma re_sub_no_newline (repl s : list A) :
  ~ In NL s -> re_sub_nlnl repl s = s.
Proof.
  induction s as [|c s IH]; intros Hs; [reflexivity|].
  rewrite re_sub_other by (intros ->; apply Hs; now left).
  f_equal. apply IH. intros Hin. apply Hs. now right.
Qed.

(** A text without newlines is folded only at the marker character: each
    vertical tab in it comes out as a paragraph break, and a text with
    neither newline nor vertical tab comes out unchanged. *)
Theorem full_without_newline (s : list A) :
  ~ In NL s ->
  full_chars s = replace VT [NL; NL] s
  /\ (~ In VT s -> full_chars s = s).
Proof.
  intros Hs. unfold full_chars.
  rewrite re_sub_no_newline by assumption.
  rewrite (@replace_absent _ _ NL [SP] s Hs).
  split; [reflexivity|]. intros Hvt. now apply replace_absent.
Qed.

Lemma replace_removes_all (old : A) (new s : list A) :
  ~ In old new -> ~ In old (replace old new s).
Proof.
  intros Hnew. induction s as [|x t IH]; simpl; [tauto|].
  ch_case x old.
  - rewrite in_app_iff. tauto.
  - intros [Hx | Hin]; auto.
Qed.

(** The folded text never holds the marker character. *)
Theorem full_has_no_marker (s : list A) : ~ In VT (full_chars s).
Proof.
  unfold full_chars. apply replace_removes_all.
  intros [E | [E | []]]; now apply NL_VT in E.
Qed.

Lemma full_chars_pair (t : list A) :
  full_chars (NL :: NL :: t) = NL :: NL :: full_chars t.
Proof.
  unfold full_chars. rewrite re_sub_pair. cbn [app].
  rewrite replace_miss
    by (intros E; symmetry in E; now apply NL_VT in E).
  now rewrite replace_hit.
Qed.

Lemma full_chars_single (t : list A) :
  match t with [] => True | c :: _ => c <> NL end ->
  full_chars (NL :: t) = SP :: full_chars t.
Proof.
  intros Ht. unfold full_chars.
  assert (R : re_sub_nlnl [VT] (NL :: t) = NL :: re_sub_nlnl [VT] t).
  { destruct t as [|c t]; [reflexivity|].
    change (re_sub_nlnl [VT] (NL :: c :: t))
      with (if ch_eqb (NL : A) NL && ch_eqb c NL
            then [VT] ++ re_sub_nlnl [VT] t
            else NL :: re_sub_nlnl [VT] (c :: t)).
    apply ch_eqb_neq in Ht. now rewrite Ht, andb_false_r. }
  rewrite R, replace_hit. cbn [app].
  now rewrite replace_miss by apply SP_VT.
Qed.

(** A run of newlines is folded in pairs from the left: [2q + r] newlines
    ([r] at most one) before a text that does not start with a newline give
    [q] paragraph breaks followed by [r] blanks. Three newlines become a
    break and a blank. *)
Theorem full_newline_run (q r : nat) (t : list A) :
  r <= 1 ->
  match t with [] => True | c :: _ => c <> NL end ->
  full_chars (repeat NL (2 * q + r) ++ t)
  = repeat NL (2 * q) ++ repeat SP r ++ full_chars t.
Proof.
  intros Hr Ht. induction q as [|q IH].
  - destruct r as [|[|r]]; [reflexivity | | lia].
    simpl. now apply full_chars_single.
  - replace (2 * S q + r) with (S (S (2 * q + r))) by lia.
    replace (2 * S q) with (S (S (2 * q))) by lia.
    cbn [repeat app]. rewrite full_chars_pair. now rewrite IH.
Qed.

End ViewFacts.

Lemma full_without_newline_witness :
  full_chars (py "a" ++ [VT] ++ py "b") = py "a" ++ [NL; NL] ++ py "b"
  /\ full_chars (py "plain text") = py "plain text".
Proof.
  split.
  - destruct (full_without_newline (py "a" ++ [VT] ++ py "b")) as [E _].
    + simpl. intuition discriminate.
    + exact E.
  - destruct (full_without_newline (py "plain text")) as [_ E].
    + simpl. intuition discriminate.
    + apply E. simpl. intuition discriminate.
Defined.

Lemma full_newline_run_witness :
  full_chars ([NL; NL; NL] ++ py "b") = [NL; NL] ++ py " b".
Proof.
  assert (Hb : "b"%char <> NL) by discriminate.
  exact (@full_newline_run ascii _ 1 1 (py "b") (le_n 1) Hb).
Defined.

(** ** Construction: the stored flag, the convenience accessor *)

Section ConstructionMore.
Variable decode_utf8 : list ascii -> option (list N).
Variable fix_encoding : list N -> list N.

(** The [decode] argument is not stored: every [Documentation] that
    construction returns has its [decode] attribute at the default [False],
    also when decoding was asked for and done. *)
Theorem constructed_decode_flag_unset :
  (forall (s : pytext) (dec : option bool) (log : list call)
          (d : Documentation),
      fromString decode_utf8 fix_encoding s dec = (log, inl d) ->
      decode d = false)
  /\ (forall (obj : PyObject) (dec : option bool) (log : list call)
             (d : Documentation),
         fromObject decode_utf8 fix_encoding obj dec = (log, inl d) ->
         decode d = false).
Proof.
  assert (Hs : forall s dec log d,
             fromString decode_utf8 fix_encoding s dec = (log, inl d) ->
             decode d = false).
  { intros [b|u] dec log d; unfold fromString; simpl.
    - destruct (truthy dec); simpl.
      + unfold str_decode_utf8. destruct (decode_utf8 (cleandoc b)); simpl;
          intros E; inversion E; reflexivity.
      + intros E. inversion E. reflexivity.
    - intros E. inversion E. reflexivity. }
  split; [exact Hs|].
  intros obj dec log d. unfold fromObject. destruct (__doc__ obj) as [s|].
  - apply Hs.
  - intros E. inversion E. reflexivity.
Qed.

(** [doc(obj)] always returns a line: it never raises, it gives a string
    without newline, and the only library call it can make is the cleaning
    of the docstring (none when there is no docstring). *)
Theorem doc_returns_a_line (obj : PyObject) :
  exists f,
    doc decode_utf8 fix_encoding obj
    = (match __doc__ obj with
       | None => []
       | Some s => [Call_cleandoc s]
       end, inl (Some f))
    /\ ~ text_contains "010" f.
Proof.
  unfold doc, fromObject. destruct (__doc__ obj) as [[b|u]|]; simpl.
  - unfold first. simpl.
    destruct (first_chars_defined (cleandoc b)) as (f & E & Hf).
    exists (Str f). rewrite E. auto.
  - unfold first. simpl.
    destruct (first_chars_defined (cleandoc u)) as (f & E & Hf).
    exists (Unicode f). rewrite E. auto.
  - exists (Str []). split; [reflexivity | intros []].
Qed.

End ConstructionMore.

Lemma constructed_decode_flag_unset_witness :
  decode (cls (Unicode [120%N])) = false.
Proof.
  apply (proj1 (constructed_decode_flag_unset
                  (fun _ => Some [120%N]) (fun u => u))
           (Str (py "x")) (Some true)
           [Call_cleandoc (Str (py "x")); Call_decode_utf8 (py "x");
            Call_fix_encoding [120%N]]).
  reflexivity.
Defined.

(** ** [cleandoc] on any docstring *)


Section CleandocMore.
Context {A : Type} `{PyChar A}.

Lemma cleandoc_joins_cleaned_lines (doc : list A) :
  cleandoc doc = str_join [NL] (cleaned_lines doc).
Proof. reflexivity. Qed.

(** Whatever holds of every line of the split text and passes to the
    suffixes of a line holds of every cleaned line. *)
Lemma cleaned_lines_inv (Q : list A -> Prop) (doc : list A) :
  (forall l n, Q l -> Q (skipn n l)) ->
  (forall l, Q l -> Q (lstrip l)) ->
  Forall Q (split NL (expandtabs doc)) ->
  Forall Q (cleaned_lines doc).
Proof.
  intros Qskip Qstrip H0. unfold cleaned_lines.
  set (L0 := split NL (expandtabs doc)) in *.
  set (m := fold_left margin_step (tl L0) sys_maxint).
  apply dropwhile_Forall, Forall_rev, dropwhile_Forall, Forall_rev.
  assert (H1 : Forall Q match L0 with
                        | [] => []
                        | l0 :: rest => lstrip l0 :: rest
                        end).
  { destruct L0 as [|l0 rest]; [constructor|].
    inversion H0; subst. constructor; auto. }
  destruct (m <? sys_maxint)%Z; [|exact H1].
  destruct L0 as [|l0 rest]; [constructor|].
  inversion H1; subst. constructor; [assumption|].
  rewrite Forall_forall in *. intros l Hl.
  apply in_map_iff in Hl. destruct Hl as (l' & <- & Hl'). apply Qskip. auto.
Qed.

Lemma in_skipn (n : nat) (l : list A) (c : A) : In c (skipn n l) -> In c l.
Proof.
  intros Hin. rewrite <- (firstn_skipn n l). apply in_app_iff. now right.
Qed.

Lemma split_pieces_incl (sep : A) (s : list A) :
  Forall (fun p => forall c, In c p -> In c s) (split sep s).
Proof.
  induction s as [|x s IH]; simpl.
  - constructor; auto.
  - ch_case x sep.
    + constructor; [intros c []|].
      eapply Forall_impl; [|exact IH]. intros p Hp c Hc. right. auto.
    + destruct (split sep s) as [|p rest].
      * constructor; [|constructor]. intros c [Hc|[]]. now left.
      * inversion IH as [|? ? Hp Hrest]; subst. constructor.
        -- intros c [Hc | Hc]; [now left | right; auto].
        -- eapply Forall_impl; [|exact Hrest]. intros q Hq c Hc. right. auto.
  Qed.

(** The head and the last of the cleaned lines are not empty. *)
Lemma cleaned_lines_ends (doc : list A) :
  cleaned_lines doc = []
  \/ (hd [] (cleaned_lines doc) <> [] /\ last (cleaned_lines doc) [] <> []).
Proof.
  unfold cleaned_lines.
  set (L2 := if (_ <? _)%Z then _ else _).
  set (R := dropwhile isempty (rev L2)).
  destruct R as [|c t] eqn:ER; [now left|].
  assert (Hc : isempty c = false) by (eapply dropwhile_head; exact ER).
  assert (Hlast : last (rev (c :: t)) [] = c).
  { simpl. apply last_last. }
  destruct (@dropwhile_keeps_last _ isempty (rev (c :: t)) []) as [Hne Hl].
  - simpl. now destruct (rev t).
  - now rewrite Hlast.
  - right. split.
    + destruct (dropwhile isempty (rev (c :: t))) as [|x T] eqn:ET;
        [congruence|].
      apply dropwhile_head in ET. simpl. now destruct x.
    + rewrite Hl, Hlast. now destruct c.
Qed.

Lemma str_join_ends_with_last (sep : list A) (ls : list (list A)) :
  ls <> [] -> exists front, str_join sep ls = front ++ last ls [].
Proof.
  induction ls as [|l ls IH]; [congruence|]. intros _.
  destruct ls as [|l2 ls].
  - exists []. reflexivity.
  - destruct IH as (front & E); [discriminate|].
    exists (l ++ sep ++ front). rewrite str_join_two, E, <- !app_assoc.
    reflexivity.
Qed.

Lemma cleandoc_ends (doc : list A) :
  (forall t, cleandoc doc <> NL :: t)
  /\ (forall t, cleandoc doc <> t ++ [NL]).
Proof.
  rewrite cleandoc_joins_cleaned_lines.
  assert (Hnl : Forall (fun l => ~ In NL l) (cleaned_lines doc)).
  { apply cleaned_lines_inv.
    - intros l n Hl Hin. apply Hl. now apply in_skipn in Hin.
    - intros l Hl Hin. apply Hl. now apply dropwhile_incl in Hin.
    - apply split_pieces_no_sep. }
  destruct (cleaned_lines_ends doc) as [-> | [Hhd Hlast]].
  - split; intros t; simpl; [discriminate | now destruct t].
  - set (T := cleaned_lines doc) in *. split; intros t E.
    + destruct T as [|[|x l] T']; simpl in Hhd; try congruence.
      destruct (str_join_head [NL] x l T') as (r & Er).
      rewrite Er in E. injection E as -> _.
      inversion Hnl as [|? ? Hx _]. apply Hx. now left.
    + assert (HT : T <> []) by (intros HT; rewrite HT in Hhd; now apply Hhd).
      destruct (str_join_ends_with_last [NL] HT) as (front & EJ).
      destruct (exists_last Hlast) as (l' & x & El).
      rewrite EJ, El, app_assoc in E. apply app_inj_tail in E.
      destruct E as [_ ->].
      rewrite Forall_forall in Hnl.
      apply (Hnl (last T [])); [now apply last_in|].
      rewrite El. apply in_app_iff. right. now left.
Qed.

(** The cleaned text neither starts nor ends with a newline, whatever the
    docstring. *)
Theorem cleandoc_no_newline_at_ends (doc : list A) :
  (forall t, cleandoc doc <> NL :: t)
  /\ (forall t, cleandoc doc <> t ++ [NL]).
Proof. apply cleandoc_ends. Qed.

(** The first line of a cleaned docstring is empty only when the whole
    cleaned text is: a docstring with any content has a summary line. *)
Theorem cleaned_first_line_not_empty (doc : list A) :
  cleandoc doc <> [] ->
  exists f, first_chars (cleandoc doc) = Some f /\ f <> [].
Proof.
  intros Hne.
  destruct (split_head_decomposes NL (cleandoc doc))
    as (f & rest & tail & E & _ & Es & Htail).
  exists f. unfold first_chars. rewrite E. split; [reflexivity|].
  intros ->. cbn [app] in Es.
  destruct Htail as [-> | (t & ->)]; [congruence|].
  now apply (proj1 (cleandoc_ends doc) t).
Qed.

Lemma expandtabs_chars (tabsize j : nat) (s : list A) (c : A) :
  In c (expandtabs_at tabsize j s) -> c = SP \/ In c s.
Proof.
  revert j. induction s as [|x s IH]; intros j; simpl; [tauto|].
  ch_case x TAB.
  - destruct (0 <? tabsize).
    + rewrite in_app_iff. intros [Hin | Hin].
      * left. now apply repeat_spec in Hin.
      * destruct (IH _ Hin); auto.
    + intros Hin. destruct (IH _ Hin); auto.
  - intros [Hc | Hin]; [auto|]. destruct (IH _ Hin); auto.
Qed.

Lemma expandtabs_leaves_no_tab (j : nat) (s : list A) :
  ~ In TAB (expandtabs_at 8 j s).
Proof.
  assert (TS : (TAB : A) <> SP) by (apply ch_neq; discriminate).
  revert j. induction s as [|x s IH]; intros j; simpl; [tauto|].
  ch_case x TAB.
  - rewrite in_app_iff. intros [Hin | Hin].
    + apply repeat_spec in Hin. contradiction.
    + now apply IH in Hin.
  - intros [Hc | Hin]; [congruence | now apply IH in Hin].
Qed.

(** Every character of the cleaned text is a newline or a character of the
    tab-expanded docstring: cleaning only removes. *)
Lemma cleandoc_chars (doc : list A) (c : A) :
  In c (cleandoc doc) -> c = NL \/ In c (expandtabs doc).
Proof.
  rewrite cleandoc_joins_cleaned_lines. intros Hin.
  apply in_str_join in Hin. destruct Hin as [[E | []] | (l & Hl & Hin)];
    [now left|]. right.
  assert (Hall : Forall (fun l => forall c, In c l -> In c (expandtabs doc))
                   (cleaned_lines doc)).
  { apply cleaned_lines_inv.
    - intros l0 n Hl0 x Hx. apply Hl0. now apply in_skipn in Hx.
    - intros l0 Hl0 x Hx. apply Hl0. now apply dropwhile_incl in Hx.
    - apply split_pieces_incl. }
  rewrite Forall_forall in Hall. now apply (Hall l).
Qed.

(** The cleaned text holds no tab: every tab of the docstring, wherever it
    stands, has been expanded to blanks. *)
Theorem cleandoc_has_no_tab (doc : list A) : ~ In TAB (cleandoc doc).
Proof.
  intros Hin. apply cleandoc_chars in Hin. destruct Hin as [E | Hin].
  - revert E. apply ch_neq. discriminate.
  - now apply expandtabs_leaves_no_tab in Hin.
Qed.

(** A docstring of one line is cleaned by expanding its tabs and stripping
    the white space before it; white space after it is kept. *)
Theorem cleandoc_single_line (doc : list A) :
  ~ In NL doc -> cleandoc doc = lstrip (expandtabs doc).
Proof.
  intros Hdoc.
  assert (He : ~ In NL (expandtabs doc)).
  { intros Hin. apply expandtabs_chars in Hin. destruct Hin as [E | Hin];
      [now apply NL_SP in E | contradiction]. }
  unfold cleandoc. rewrite split_no_sep by exact He. cbn [tl fold_left].
  change (sys_maxint <? sys_maxint)%Z with false. cbv iota.
  destruct (lstrip (expandtabs doc)) as [|x l]; reflexivity.
Qed.

End CleandocMore.

Lemma cleandoc_single_line_witness :
  cleandoc (py "  Summary.  ") = py "Summary.  ".
Proof.
  assert (Hnl : ~ In NL (py "  Summary.  "))
    by (simpl; intuition discriminate).
  exact (cleandoc_single_line (py "  Summary.  ") Hnl).
Defined.

(** ** More on the resolver: fragments and arguments *)

Lemma join_step_abs_r (a b : str) :
  posixpath.isabs b = true -> posixpath.join_step a b = b.
Proof.
  intros Hb. unfold posixpath.join_step, posixpath.isabs in *. now rewrite Hb.
Qed.

Lemma join_isabs (a : str) (p : list str) :
  posixpath.isabs a = true -> posixpath.isabs (posixpath.join a p) = true.
Proof.
  unfold posixpath.join. revert a.
  induction p as [|b p IH]; intros a Ha; [exact Ha|].
  simpl. apply IH. now apply join_step_isabs.
Qed.

Lemma init_cons (w : World) (acc : str) (paths : list str) (cur : str) :
  fold_left (init_step w) (cur :: paths) acc
  = fold_left (init_step w) paths (init_step w acc cur).
Proof. reflexivity. Qed.

(** A fragment that is absolute (after home expansion) makes the
    constructor forget every fragment before it. *)
Theorem init_absolute_fragment_resets :
  forall (w : World) (pre post : list str) (cur : str),
    posixpath.isabs (posixpath.expanduser w cur) = true ->
    path (__init__ w (pre ++ cur :: post)) = path (__init__ w (cur :: post)).
Proof.
  intros w pre post cur Hcur. unfold __init__. cbn [path].
  rewrite fold_left_app, !init_cons. f_equal.
  unfold init_step, posixpath.join. cbn [fold_left].
  now rewrite !join_step_abs_r by assumption.
Qed.

Lemma init_absolute_fragment_resets_witness :
  path (__init__ cory_world ([py "codado"; py "docs"] ++ py "~" :: [py "bin"]))
  = path (__init__ cory_world (py "~" :: [py "bin"])).
Proof.
  apply (init_absolute_fragment_resets cory_world
           [py "codado"; py "docs"] [py "bin"] (py "~")).
  reflexivity.
Defined.

(** Every path a resolver returns is absolute, when it was built from at
    least one fragment in a process whose working directory is absolute. *)
Theorem call_result_absolute :
  forall (w : World) (paths args : list str),
    posixpath.isabs (cwd w) = true ->
    paths <> [] ->
    let st := {| world := w; self := __init__ w paths |} in
    exists r, __call__ args st = (inl r, st) /\ posixpath.isabs r = true.
Proof.
  intros w paths args Hcwd Hne st.
  exists (posixpath.join (path (__init__ w paths)) args).
  split; [reflexivity|]. apply join_isabs.
  destruct (exists_last Hne) as (front & cur & ->).
  rewrite init_snoc. now apply init_step_isabs.
Qed.

Lemma call_result_absolute_witness :
  let st := {| world := cory_world;
               self := __init__ cory_world [py "codado"] |} in
  exists r, __call__ [py "test"; py "test_py.py"] st = (inl r, st)
            /\ posixpath.isabs r = true.
Proof.
  apply (@call_result_absolute cory_world [py "codado"]
           [py "test"; py "test_py.py"]); [reflexivity | discriminate].
Defined.

Lemma join_step_rel_extends (a b : str) :
  posixpath.isabs b = false ->
  exists suffix, posixpath.join_step a b = a ++ suffix.
Proof.
  intros Hb. unfold posixpath.join_step, posixpath.isabs in *. rewrite Hb.
  destruct (isempty a || endswith a (py "/")); eauto.
Qed.

Lemma join_rel_extends (a : str) (p : list str) :
  Forall (fun b => posixpath.isabs b = false) p ->
  exists suffix, posixpath.join a p = a ++ suffix.
Proof.
  unfold posixpath.join. intros Hp. revert a.
  induction Hp as [|b p Hb Hp IH]; intros a.
  - exists []. simpl. now rewrite app_nil_r.
  - simpl. destruct (@join_step_rel_extends a b Hb) as (s1 & E1).
    destruct (IH (posixpath.join_step a b)) as (s2 & E2).
    exists (s1 ++ s2). now rewrite E2, E1, app_assoc.
Qed.

(** What the arguments of a call can do to the base path. With arguments
    that are all relative the result starts with the base path; an absolute
    argument throws away the base path and the arguments before it, so the
    result is not confined to the resolver's directory. *)
Theorem call_arguments_and_base :
  forall (st : State),
    (forall args : list str,
        Forall (fun a => posixpath.isabs a = false) args ->
        exists suffix,
          __call__ args st = (inl (path (self st) ++ suffix), st))
    /\ (forall (pre post : list str) (a : str),
           posixpath.isabs a = true ->
           __call__ (pre ++ a :: post) st = (inl (posixpath.join a post), st)).
Proof.
  intros st. split.
  - intros args Hargs.
    destruct (@join_rel_extends (path (self st)) args Hargs) as (suffix & E).
    exists suffix. unfold __call__, bind, get_path, ret. now rewrite E.
  - intros pre post a Ha. unfold __call__, bind, get_path, ret.
    unfold posixpath.join. rewrite fold_left_app. cbn [fold_left].
    now rewrite join_step_abs_r.
Qed.

Lemma call_arguments_and_base_witness :
  let st := {| world := cory_world;
               self := {| path := py "/srv/app"; _origDir := None |} |} in
  (exists suffix,
      __call__ [py "conf"; py "app.ini"] st
      = (inl (py "/srv/app" ++ suffix), st))
  /\ __call__ ([py "conf"] ++ py "/etc" :: [py "passwd"]) st
     = (inl (py "/etc/passwd"), st).
Proof.
  intros st. split.
  - apply (proj1 (call_arguments_and_base st) [py "conf"; py "app.ini"]).
    repeat constructor.
  - apply (proj2 (call_arguments_and_base st) [py "conf"] [py "passwd"]
             (py "/etc")).
    reflexivity.
Defined.

(** [_sibpath] returns an absolute path whatever its arguments, in a
    process whose working directory is absolute; an absolute [sibling] is
    returned as it is, the directory of [path] being dropped. *)
Theorem sibpath_absolute :
  forall (w : World) (p sibling : str),
    posixpath.isabs (cwd w) = true ->
    posixpath.isabs (_sibpath w p sibling) = true
    /\ (posixpath.isabs sibling = true -> _sibpath w p sibling = sibling).
Proof.
  intros w p sibling Hcwd. split.
  - unfold _sibpath. apply join_isabs, dirname_isabs. now apply abspath_isabs.
  - intros Hs. unfold _sibpath, posixpath.join. cbn [fold_left].
    now apply join_step_abs_r.
Qed.

Lemma sibpath_absolute_witness :
  posixpath.isabs (_sibpath cory_world (py "codado/py.py") (py "tx.py")) = true
  /\ (posixpath.isabs (py "tx.py") = true ->
      _sibpath cory_world (py "codado/py.py") (py "tx.py") = py "tx.py").
Proof.
  apply (sibpath_absolute cory_world (py "codado/py.py") (py "tx.py")).
  reflexivity.
Defined.

(** ** Scoped activation of the same resolver, nested *)

(** Entering a resolver again inside its own block loses the directory to
    go back to: the inner [__enter__] overwrites the record, so both exits
    change to the resolver's own directory, and that is where the process is
    left. (The directory [d] is the one the resolver's path, and [d] itself,
    resolve to from anywhere.) *)
Theorem nested_same_resolver_stays :
  forall (st : State) (d : str),
    (forall c, dir_lookup (world st) c (path (self st)) = Some d) ->
    (forall c, dir_lookup (world st) c d = Some d) ->
    exists st',
      with_fromdir (fun _ => with_fromdir (fun _ => ret tt)) st = (inl tt, st')
      /\ cwd (world st') = d
      /\ _origDir (self st') = Some d.
Proof.
  intros st d Hpath Hd.
  unfold with_fromdir, bind, __enter__, __exit__, bind, os_getcwd,
    set_origDir, get_path, get_origDir, os_chdir, ret, raise.
  cbn. rewrite Hpath. cbn. rewrite Hpath. cbn. rewrite Hd. cbn.
  rewrite Hd. cbn.
  eexists. split; [reflexivity|]. split; reflexivity.
Qed.

Lemma nested_same_resolver_stays_witness :
  exists st',
    with_fromdir (fun _ => with_fromdir (fun _ => ret tt))
      {| world := cory_world;
         self := {| path := py "/home/cory"; _origDir := None |} |}
    = (inl tt, st')
    /\ cwd (world st') = py "/home/cory"
    /\ _origDir (self st') = Some (py "/home/cory").
Proof.
  apply (@nested_same_resolver_stays
           {| world := cory_world;
              self := {| path := py "/home/cory"; _origDir := None |} |}
           (py "/home/cory")); intros c; reflexivity.
Defined.

(** ** Dictionaries and [enum] *)

Section DictFacts.
Context {V : Type}.

Lemma getitem_setitem_same (k : str) (v : V) (d : list (str * V)) :
  dict_getitem k (dict_setitem k v d) = Some v.
Proof.
  induction d as [|[k' v'] d IH]; simpl.
  - now rewrite str_eqb_refl.
  - destruct (str_eqb k' k) eqn:E; simpl.
    + now rewrite str_eqb_refl.
    + now rewrite E.
Qed.

Lemma getitem_setitem_other (k a : str) (v : V) (d : list (str * V)) :
  a <> k -> dict_getitem a (dict_setitem k v d) = dict_getitem a d.
Proof.
  intros Hne. induction d as [|[k' v'] d IH]; simpl.
  - assert (E : str_eqb k a = false)
      by (apply str_eqb_neq; congruence).
    now rewrite E.
  - destruct (str_eqb k' k) eqn:E; simpl.
    + apply str_eqb_eq in E. subst k'.
      assert (E' : str_eqb k a = false) by (apply str_eqb_neq; congruence).
      now rewrite E'.
    + destruct (str_eqb k' a); [reflexivity | exact IH].
Qed.

Lemma setitem_keys (k a : str) (v : V) (d : list (str * V)) :
  In a (map fst (dict_setitem k v d)) <-> a = k \/ In a (map fst d).
Proof.
  induction d as [|[k' v'] d IH]; simpl.
  - split; [intros [E | []]; auto | intros [E | []]; auto].
  - destruct (str_eqb k' k) eqn:E; simpl.
    + apply str_eqb_eq in E. subst k'. intuition congruence.
    + rewrite IH. intuition congruence.
Qed.

Lemma setitem_NoDup (k : str) (v : V) (d : list (str * V)) :
  NoDup (map fst d) -> NoDup (map fst (dict_setitem k v d)).
Proof.
  induction d as [|[k' v'] d IH]; simpl; intros Hd.
  - constructor; [intros [] | constructor].
  - inversion Hd as [|? ? Hk' Hrest]; subst.
    destruct (str_eqb k' k) eqn:E; simpl.
    + apply str_eqb_eq in E. subst k'. now constructor.
    + constructor; [|now apply IH].
      rewrite setitem_keys. intros [Ek | Hin]; [|contradiction].
      apply str_eqb_neq in E. congruence.
Qed.

Lemma setitem_Forall (P : str * V -> Prop) (k : str) (v : V)
    (d : list (str * V)) :
  P (k, v) -> Forall P d -> Forall P (dict_setitem k v d).
Proof.
  intros Hkv. induction 1 as [|[k' v'] d Hx Hd IH]; simpl.
  - constructor; [assumption | constructor].
  - destruct (str_eqb k' k); constructor; assumption.
Qed.

Lemma getitem_in (k : str) (v : V) (d : list (str * V)) :
  dict_getitem k d = Some v -> In (k, v) d.
Proof.
  induction d as [|[k' v'] d IH]; simpl; [discriminate|].
  destruct (str_eqb k' k) eqn:E.
  - apply str_eqb_eq in E. subst k'. intros E'. injection E' as ->. now left.
  - intros Hget. right. now apply IH.
Qed.

Lemma getitem_none (k : str) (d : list (str * V)) :
  dict_getitem k d = None <-> ~ In k (map fst d).
Proof.
  induction d as [|[k' v'] d IH]; simpl; [tauto|].
  destruct (str_eqb k' k) eqn:E.
  - apply str_eqb_eq in E. subst k'. split; [discriminate | tauto].
  - apply str_eqb_neq in E. rewrite IH. tauto.
Qed.

Lemma fold_set_NoDup (pairs d : list (str * V)) :
  NoDup (map fst d) -> NoDup (map fst (fold_left set_pair pairs d)).
Proof.
  revert d. induction pairs as [|kv pairs IH]; intros d Hd; [exact Hd|].
  simpl. apply IH. now apply setitem_NoDup.
Qed.

Lemma fold_set_Forall (P : str * V -> Prop) (pairs d : list (str * V)) :
  Forall P pairs -> Forall P d -> Forall P (fold_left set_pair pairs d).
Proof.
  intros Hp. revert d. induction Hp as [|[k v] pairs Hkv Hp IH];
    intros d Hd; [exact Hd|].
  simpl. apply IH. now apply setitem_Forall.
Qed.

Lemma fold_set_keys (pairs d : list (str * V)) (a : str) :
  In a (map fst (fold_left set_pair pairs d))
  <-> In a (map fst pairs) \/ In a (map fst d).
Proof.
  revert d. induction pairs as [|[k v] pairs IH]; intros d; simpl; [tauto|].
  rewrite IH. unfold set_pair. rewrite setitem_keys. simpl.
  intuition congruence.
Qed.

End DictFacts.

Lemma key_pairs_map (keys : list str) :
  enum.key_pairs keys = map (fun k => (k, k)) keys.
Proof.
  unfold enum.key_pairs.
  assert (G : forall acc, fold_left (fun dd k => dd ++ [(k, k)]) keys acc
                          = acc ++ map (fun k : str => (k, k)) keys).
  { induction keys as [|k keys IH]; intros acc; simpl.
    - now rewrite app_nil_r.
    - rewrite IH, <- app_assoc. reflexivity. }
  apply (G []).
Qed.

Lemma fromkeys_facts (keys : list str) :
  NoDup (map fst (enum.fromkeys keys))
  /\ Forall (fun kv => snd kv = fst kv) (enum.fromkeys keys)
  /\ (forall a, In a (map fst (enum.fromkeys keys)) <-> In a keys).
Proof.
  unfold enum.fromkeys, dict_update, dict_of_pairs. rewrite key_pairs_map.
  set (dd := map (fun k : str => (k, k)) keys).
  assert (Hdd : Forall (fun kv : str * str => snd kv = fst kv) dd).
  { apply Forall_forall. intros kv Hkv. apply in_map_iff in Hkv.
    destruct Hkv as (k & <- & _). reflexivity. }
  assert (Hkeys : map fst dd = keys).
  { unfold dd. rewrite map_map. simpl. apply map_id. }
  repeat split.
  - apply fold_set_NoDup. constructor.
  - apply fold_set_Forall; [|constructor].
    apply fold_set_Forall; [assumption | constructor].
  - rewrite fold_set_keys, fold_set_keys, Hkeys. simpl. tauto.
  - intros Hin. rewrite fold_set_keys, fold_set_keys, Hkeys. simpl. tauto.
Qed.

Lemma existsb_str_in (a : str) (keys : list str) :
  existsb (str_eqb a) keys = true <-> In a keys.
Proof.
  rewrite existsb_exists. split.
  - intros (k & Hk & E). apply str_eqb_eq in E. now subst.
  - intros Hin. exists a. split; [assumption | apply str_eqb_refl].
Qed.

(** Reading an attribute of [enum.fromkeys(keys)] through [__getattr__]
    gives the name itself when it is one of the keys, and raises
    [AttributeError] with that name when it is not (the [KeyError] of the
    lookup never comes out). *)
Theorem enum_getattr_of_fromkeys :
  forall (keys : list str) (attr : str),
    enum.__getattr__ (enum.fromkeys keys) attr
    = if existsb (str_eqb attr) keys then inl attr
      else inr (enum.AttributeError attr).
Proof.
  intros keys attr. unfold enum.__getattr__.
  destruct (fromkeys_facts keys) as (_ & Hdiag & Hkeys).
  destruct (dict_getitem attr (enum.fromkeys keys)) as [v|] eqn:Hget.
  - pose proof (getitem_in _ _ Hget) as Hin.
    rewrite Forall_forall in Hdiag. apply Hdiag in Hin. simpl in Hin. subst v.
    assert (Hk : In attr keys).
    { apply Hkeys. destruct (In_dec (list_eq_dec ascii_dec) attr
                               (map fst (enum.fromkeys keys))) as [Hi|Hn];
        [assumption|]. apply getitem_none in Hn. congruence. }
    apply existsb_str_in in Hk. now rewrite Hk.
  - apply getitem_none in Hget.
    destruct (existsb (str_eqb attr) keys) eqn:E; [|reflexivity].
    apply existsb_str_in, Hkeys in E. contradiction.
Qed.

(** The items of [enum.fromkeys(keys)]: each key of [keys] once, however
    often it is listed, mapped to itself, and nothing else. *)
Theorem enum_fromkeys_items :
  forall (keys : list str),
    NoDup (map fst (enum.fromkeys keys))
    /\ (forall k v, In (k, v) (enum.fromkeys keys) <-> v = k /\ In k keys).
Proof.
  intros keys. destruct (fromkeys_facts keys) as (Hnd & Hdiag & Hkeys).
  split; [assumption|]. intros k v. split.
  - intros Hin. rewrite Forall_forall in Hdiag. split.
    + apply (Hdiag (k, v) Hin).
    + apply Hkeys. apply in_map_iff. exists (k, v). auto.
  - intros [-> Hk]. apply getitem_in.
    destruct (dict_getitem k (enum.fromkeys keys)) as [v|] eqn:Hget.
    + pose proof (getitem_in _ _ Hget) as Hin.
      rewrite Forall_forall in Hdiag. apply Hdiag in Hin. simpl in Hin.
      now subst.
    + apply getitem_none in Hget. apply Hkeys in Hk. contradiction.
Qed.

(** ** [eachMethod] *)

Section EachMethodFacts.
Variable V : Type.
Variables is_method im_self_is_None im_class_is_type : V -> bool.
Variables decorator classmethod : V -> V.

Let loop := innerDeco_loop is_method im_self_is_None im_class_is_type
              decorator classmethod.
Let sel := selected is_method.
Let wrappable_ := wrappable im_self_is_None im_class_is_type.
Let wrapped_ := wrapped im_self_is_None decorator classmethod.

Lemma loop_untouched (test : str -> bool) (members cls : list (str * V))
    (name : str) :
  (forall fn, In (name, fn) members -> sel test (name, fn) = false) ->
  dict_getitem name (fst (loop test members cls)) = dict_getitem name cls.
Proof.
  revert cls. induction members as [|[fName fn] rest IH]; intros cls Hno;
    [reflexivity|].
  assert (Hrest : forall fn', In (name, fn') rest ->
                              sel test (name, fn') = false)
    by (intros fn' Hin; apply Hno; now right).
  simpl. destruct (is_method fn && test fName) eqn:Esel; [|now apply IH].
  assert (Hne : name <> fName).
  { intros ->. specialize (Hno fn (or_introl eq_refl)).
    unfold sel, selected in Hno. simpl in Hno. congruence. }
  destruct (im_self_is_None fn).
  - rewrite IH by assumption. now apply getitem_setitem_other.
  - destruct (im_class_is_type fn); [|reflexivity].
    rewrite IH by assumption. now apply getitem_setitem_other.
Qed.

Lemma loop_step_selected (test : str -> bool) (fName : str) (fn : V)
    (rest cls : list (str * V)) :
  sel test (fName, fn) = true ->
  wrappable_ (fName, fn) = true ->
  loop test ((fName, fn) :: rest) cls
  = loop test rest (dict_setitem fName (wrapped_ fn) cls).
Proof.
  unfold sel, selected, wrappable_, wrappable, wrapped_, wrapped. simpl.
  intros -> Hw. destruct (im_self_is_None fn); [reflexivity|].
  simpl in Hw. now rewrite Hw.
Qed.

Lemma loop_step_skipped (test : str -> bool) (m : str * V)
    (rest cls : list (str * V)) :
  sel test m = false -> loop test (m :: rest) cls = loop test rest cls.
Proof.
  destruct m as [fName fn]. unfold sel, selected. simpl. now intros ->.
Qed.

Lemma loop_wraps (test : str -> bool) (members cls : list (str * V)) :
  NoDup (map fst members) ->
  (forall m, In m members -> sel test m = true -> wrappable_ m = true) ->
  snd (loop test members cls) = None
  /\ forall name fn,
       In (name, fn) members -> sel test (name, fn) = true ->
       dict_getitem name (fst (loop test members cls)) = Some (wrapped_ fn).
Proof.
  revert cls. induction members as [|[fName fn] rest IH]; intros cls Hnd Hok.
  - split; [reflexivity | intros ? ? []].
  - inversion Hnd as [|? ? Hfresh Hnd']; subst.
    assert (Hok' : forall m, In m rest -> sel test m = true ->
                             wrappable_ m = true)
      by (intros m Hm; apply Hok; now right).
    destruct (sel test (fName, fn)) eqn:Esel.
    + assert (Hw : wrappable_ (fName, fn) = true)
        by (apply Hok; [now left | assumption]).
      rewrite loop_step_selected by assumption.
      destruct (IH (dict_setitem fName (wrapped_ fn) cls) Hnd' Hok')
        as [Hnone Hget].
      split; [assumption|]. intros name fn' [E | Hin] Hs.
      * injection E as <- <-.
        unfold loop. rewrite loop_untouched.
        -- apply getitem_setitem_same.
        -- intros fn'' Hin. exfalso. apply Hfresh.
           apply in_map_iff. exists (fName, fn''). auto.
      * now apply Hget.
    + rewrite loop_step_skipped by assumption.
      destruct (IH cls Hnd' Hok') as [Hnone Hget].
      split; [assumption|]. intros name fn' [E | Hin] Hs.
      * injection E as <- <-. congruence.
      * now apply Hget.
Qed.

Lemma loop_app (test : str -> bool) (pre rest cls : list (str * V)) :
  (forall m, In m pre -> sel test m = true -> wrappable_ m = true) ->
  loop test (pre ++ rest) cls = loop test rest (fst (loop test pre cls)).
Proof.
  revert cls. induction pre as [|[fName fn] pre IH]; intros cls Hok;
    [reflexivity|].
  assert (Hok' : forall m, In m pre -> sel test m = true ->
                           wrappable_ m = true)
    by (intros m Hm; apply Hok; now right).
  cbn [app]. destruct (sel test (fName, fn)) eqn:Esel.
  - assert (Hw : wrappable_ (fName, fn) = true)
      by (apply Hok; [now left | assumption]).
    rewrite !loop_step_selected by assumption.
    now apply IH.
  - rewrite !loop_step_skipped by assumption. now apply IH.
Qed.

(** [eachMethod] leaves alone every attribute that is not a method passing
    the filter. With a string as filter, an attribute whose name does not
    start with that prefix is never rewritten. *)
Theorem eachMethod_leaves_others :
  forall (methodFilter : method_filter) (members cls : list (str * V))
         (name : str),
    (forall fn, In (name, fn) members ->
                is_method fn && filter_test methodFilter name = false) ->
    dict_getitem name
      (fst (eachMethod is_method im_self_is_None im_class_is_type
              decorator classmethod methodFilter members cls))
    = dict_getitem name cls.
Proof.
  intros methodFilter members cls name Hno. unfold eachMethod.
  apply loop_untouched. exact Hno.
Qed.

Theorem eachMethod_prefix_leaves_others :
  forall (prefix : str) (members cls : list (str * V)) (name : str),
    startswith name prefix = false ->
    dict_getitem name
      (fst (eachMethod is_method im_self_is_None im_class_is_type
              decorator classmethod (FilterPrefix prefix) members cls))
    = dict_getitem name cls.
Proof.
  intros prefix members cls name Hname. unfold eachMethod.
  apply loop_untouched. intros fn _. unfold sel, selected. simpl.
  rewrite Hname. apply andb_false_r.
Qed.

(** When every method that passes the filter is an unbound instance method
    or a classmethod, [eachMethod] ends without error and every such method
    has been replaced: by [decorator(fn)] if unbound, by
    [classmethod(decorator(fn))] otherwise. *)
Theorem eachMethod_wraps_every_match :
  forall (methodFilter : method_filter) (members cls : list (str * V)),
    NoDup (map fst members) ->
    (forall m, In m members ->
               selected is_method (filter_test methodFilter) m = true ->
               wrappable im_self_is_None im_class_is_type m = true) ->
    let r := eachMethod is_method im_self_is_None im_class_is_type
               decorator classmethod methodFilter members cls in
    snd r = None
    /\ forall name fn,
         In (name, fn) members ->
         selected is_method (filter_test methodFilter) (name, fn) = true ->
         dict_getitem name (fst r)
         = Some (wrapped im_self_is_None decorator classmethod fn).
Proof.
  intros methodFilter members cls Hnd Hok r. subst r. unfold eachMethod.
  now apply loop_wraps.
Qed.

(** A bound method that passes the filter and whose class is not [type]
    stops [eachMethod] with an [AssertionError] naming it. The members
    sorted before it have been rewrapped already and stay so; the members
    after it are not looked at. *)
Theorem eachMethod_assertion_is_partial :
  forall (methodFilter : method_filter) (pre post cls : list (str * V))
         (fName : str) (fn : V),
    (forall m, In m pre ->
               selected is_method (filter_test methodFilter) m = true ->
               wrappable im_self_is_None im_class_is_type m = true) ->
    selected is_method (filter_test methodFilter) (fName, fn) = true ->
    wrappable im_self_is_None im_class_is_type (fName, fn) = false ->
    eachMethod is_method im_self_is_None im_class_is_type
      decorator classmethod methodFilter (pre ++ (fName, fn) :: post) cls
    = (fst (eachMethod is_method im_self_is_None im_class_is_type
              decorator classmethod methodFilter pre cls),
       Some (AssertionError fName)).
Proof.
  intros methodFilter pre post cls fName fn Hpre Hsel Hbad.
  unfold eachMethod. fold loop. rewrite loop_app by exact Hpre.
  unfold loop. simpl. unfold selected in Hsel. simpl in Hsel. rewrite Hsel.
  unfold wrappable in Hbad. simpl in Hbad.
  apply orb_false_iff in Hbad. destruct Hbad as [-> ->]. reflexivity.
Qed.

End EachMethodFacts.

(** ** Construction without a file on the way *)

Lemma split_app_sep {A : Type} `{PyChar A} (sep : A) (p r : list A) :
  split sep (p ++ sep :: r) = split sep p ++ split sep r.
Proof.
  induction p as [|c p IH].
  - simpl. now rewrite ch_eqb_refl.
  - cbn [app]. simpl. ch_case c sep.
    + now rewrite IH.
    + rewrite IH. destruct (split_cons_shape sep p) as (q & rest & Eq & _).
      now rewrite Eq.
Qed.

Lemma normpath_abs_eq (p : str) :
  posixpath.isabs p = true ->
  posixpath.normpath p
  = repeat SLASH (initial_slashes p)
    ++ str_join (py "/")
         (fold_left (posixpath.norm_step (initial_slashes p))
            (split SLASH p) []).
Proof.
  intros Hp. apply isabs_cons in Hp. destruct Hp as (r & ->).
  rewrite normpath_unfold. cbn [isempty]. cbv zeta.
  destruct (initial_slashes_abs r) as [-> | ->]; reflexivity.
Qed.

Lemma shape_initial_slashes (k : nat) (comps : list str) :
  k = 1 \/ k = 2 ->
  Forall plain_component comps ->
  initial_slashes (repeat SLASH k ++ str_join (py "/") comps) = k.
Proof.
  intros Hk Hall. destruct comps as [|c0 comps'] eqn:Ecomps.
  - destruct Hk as [-> | ->]; reflexivity.
  - destruct (join_plain_head Hall) as (c & r & EJ & Hc); [discriminate|].
    rewrite EJ. apply Ascii.eqb_neq in Hc.
    destruct Hk as [-> | ->]; unfold initial_slashes; simpl; now rewrite Hc.
Qed.

Lemma shape_components (k : nat) (comps : list str) :
  Forall plain_component comps ->
  fold_left (posixpath.norm_step k)
    (split SLASH (repeat SLASH k ++ str_join (py "/") comps)) []
  = comps.
Proof.
  intros Hall.
  assert (Hnos : Forall (fun c => ~ In (SLASH : ascii) c) comps).
  { eapply Forall_impl; [|exact Hall]. now intros c (_ & _ & _ & Hc). }
  rewrite split_repeat_sep, fold_norm_empties.
  destruct comps as [|c0 comps'] eqn:Ecomps; [reflexivity|].
  change (py "/") with [SLASH : ascii].
  rewrite split_join_end by (auto; discriminate).
  now rewrite fold_norm_plain.
Qed.

Lemma norm_step_empty (k : nat) (acc : list str) :
  posixpath.norm_step k acc [] = acc.
Proof. reflexivity. Qed.

Lemma fold_split_join_step (k : nat) (z e : str) :
  z <> [] ->
  posixpath.isabs e = false ->
  fold_left (posixpath.norm_step k) (split SLASH (posixpath.join_step z e)) []
  = fold_left (posixpath.norm_step k) (split SLASH e)
      (fold_left (posixpath.norm_step k) (split SLASH z) []).
Proof.
  intros Hz He. unfold posixpath.join_step, posixpath.isabs in *. rewrite He.
  destruct z as [|c z]; [congruence|]. cbn [isempty orb].
  destruct (endswith (c :: z) (py "/")) eqn:Eend.
  - apply endswith_char in Eend. destruct Eend as (z' & Ez). rewrite Ez.
    rewrite <- app_assoc. cbn [app].
    change ("/"%char) with (@SLASH ascii _).
    rewrite (split_app_sep SLASH z' e), (split_app_sep SLASH z' []).
    rewrite !fold_left_app. reflexivity.
  - change (py "/" ++ e) with ((SLASH : ascii) :: e).
    rewrite split_app_sep, fold_left_app. reflexivity.
Qed.

Lemma initial_slashes_join_step (z e : str) :
  posixpath.isabs z = true ->
  posixpath.isabs e = false ->
  initial_slashes (posixpath.join_step z e) = initial_slashes z.
Proof.
  intros Hz He. apply isabs_cons in Hz. destruct Hz as (r & ->).
  unfold posixpath.join_step, posixpath.isabs in *. rewrite He.
  cbn [isempty orb].
  destruct r as [|c r].
  - change (endswith ["/"%char] (py "/")) with true. cbv iota.
    unfold initial_slashes. simpl. simpl in He.
    destruct e as [|x e]; [reflexivity|]. simpl in *.
    rewrite andb_true_r in He. now rewrite He.
  - destruct (Ascii.eqb c "/") eqn:Ec.
    + apply Ascii.eqb_eq in Ec. subst c. destruct r as [|c' r].
      * change (endswith ["/"%char; "/"%char] (py "/")) with true. cbv iota.
        unfold initial_slashes. simpl.
        destruct e as [|x e]; [reflexivity|]. simpl in *.
        rewrite andb_true_r in He. now rewrite He.
      * destruct (endswith _ (py "/")); unfold initial_slashes; simpl;
          reflexivity.
    + destruct (endswith _ (py "/")); unfold initial_slashes; simpl;
        now rewrite Ec.
Qed.

(** Joining onto a normalized path and normalizing gives what joining onto
    the path itself and normalizing gives. *)
Lemma normpath_join_normalized (y e : str) :
  posixpath.isabs y = true ->
  posixpath.isabs e = false ->
  posixpath.normpath (posixpath.join_step (posixpath.normpath y) e)
  = posixpath.normpath (posixpath.join_step y e).
Proof.
  intros Hy He.
  pose proof (normpath_isabs y Hy) as Hny.
  rewrite (@normpath_abs_eq (posixpath.join_step (posixpath.normpath y) e))
    by now apply join_step_isabs.
  rewrite (@normpath_abs_eq (posixpath.join_step y e))
    by now apply join_step_isabs.
  rewrite !initial_slashes_join_step by assumption.
  assert (Hynonempty : y <> []).
  { apply isabs_cons in Hy. destruct Hy as (r & ->). discriminate. }
  assert (Hnynonempty : posixpath.normpath y <> []).
  { apply isabs_cons in Hny. destruct Hny as (r & ->). discriminate. }
  rewrite !fold_split_join_step by assumption.
  set (k := initial_slashes y).
  set (comps := fold_left (posixpath.norm_step k) (split SLASH y) []).
  assert (Hk : k = 1 \/ k = 2).
  { subst k. apply isabs_cons in Hy. destruct Hy as (r & ->).
    apply initial_slashes_abs. }
  assert (Hplain : Forall plain_component comps).
  { apply fold_norm_keeps_plain;
      [lia | constructor | apply split_pieces_no_sep]. }
  assert (Eny : posixpath.normpath y
                = repeat SLASH k ++ str_join (py "/") comps)
    by now apply normpath_abs_eq.
  rewrite Eny, shape_initial_slashes by assumption.
  now rewrite shape_components.
Qed.

Lemma joined_fragments_snoc (w : World) (pre : list str) (cur : str) :
  joined_fragments w (pre ++ [cur])
  = posixpath.normpath
      (posixpath.join_step
         (posixpath.join (cwd w) (map (posixpath.expanduser w) pre))
         (posixpath.expanduser w cur)).
Proof.
  unfold joined_fragments, posixpath.join.
  now rewrite map_app, fold_left_app.
Qed.

Lemma abspath_join_step_cwd (w : World) (e : str) :
  posixpath.abspath w e = posixpath.normpath (posixpath.join_step (cwd w) e).
Proof.
  unfold posixpath.abspath. destruct (posixpath.isabs e) eqn:He; simpl.
  - now rewrite join_step_abs_r.
  - reflexivity.
Qed.

(** The joined path of one more fragment, from the stored path of the
    fragments before. *)
Lemma abspath_join_stored (w : World) (pre : list str) (cur : str) :
  posixpath.isabs (cwd w) = true ->
  posixpath.abspath w
    (posixpath.join
       (match pre with [] => py "" | _ => joined_fragments w pre end)
       [posixpath.expanduser w cur])
  = joined_fragments w (pre ++ [cur]).
Proof.
  intros Hcwd. rewrite joined_fragments_snoc.
  set (e := posixpath.expanduser w cur).
  unfold posixpath.join at 1. cbn [fold_left].
  destruct pre as [|p pre'] eqn:Epre.
  - rewrite join_step_empty_l. apply abspath_join_step_cwd.
  - rewrite <- Epre. clear Epre.
    set (C := posixpath.join (cwd w) (map (posixpath.expanduser w) pre)).
    assert (HC : posixpath.isabs C = true) by now apply join_isabs.
    unfold joined_fragments. fold C.
    destruct (posixpath.isabs e) eqn:He.
    + rewrite !join_step_abs_r by assumption. now apply abspath_of_abs.
    + rewrite abspath_of_abs
        by (apply join_step_isabs; now apply normpath_isabs).
      now apply normpath_join_normalized.
Qed.

Lemma endswith_app (x y : str) :
  y <> [] -> endswith (x ++ y) (py "/") = endswith y (py "/").
Proof.
  intros Hy. unfold endswith. rewrite rev_app_distr.
  destruct (rev y) as [|h t] eqn:E.
  - apply (f_equal (@rev ascii)) in E. rewrite rev_involutive in E.
    contradiction.
  - reflexivity.
Qed.

Lemma join_step_rel (a b : str) :
  posixpath.isabs b = false ->
  posixpath.join_step a b
  = if isempty a || endswith a (py "/") then a ++ b else a ++ py "/" ++ b.
Proof.
  intros Hb. unfold posixpath.join_step, posixpath.isabs in *.
  now rewrite Hb.
Qed.

(** Joining is associative: a path joined with two names one after the
    other is the path joined with the join of the names. *)
Lemma join_step_assoc (a e1 e2 : str) :
  posixpath.join_step (posixpath.join_step a e1) e2
  = posixpath.join_step a (posixpath.join_step e1 e2).
Proof.
  destruct (posixpath.isabs e2) eqn:H2.
  - now rewrite !(@join_step_abs_r _ e2) by assumption.
  - destruct (posixpath.isabs e1) eqn:H1.
    + rewrite (@join_step_abs_r a e1) by assumption.
      now rewrite (@join_step_abs_r a (posixpath.join_step e1 e2))
        by now apply join_step_isabs.
    + destruct e1 as [|h t].
      * rewrite join_step_empty_l.
        rewrite (@join_step_rel a []) by assumption.
        rewrite (@join_step_rel a e2) by assumption.
        destruct (isempty a || endswith a (py "/")) eqn:Ea.
        -- rewrite app_nil_r. rewrite join_step_rel by assumption.
           now rewrite Ea.
        -- rewrite join_step_rel by assumption.
           replace (isempty (a ++ py "/" ++ [])
                    || endswith (a ++ py "/" ++ []) (py "/")) with true.
           ++ now rewrite <- !app_assoc.
           ++ symmetry. apply orb_true_iff. right. apply endswith_char.
              exists a. reflexivity.
      * assert (HX : posixpath.isabs (posixpath.join_step (h :: t) e2)
                     = false).
        { rewrite join_step_rel by assumption. cbn [isempty orb].
          destruct (endswith (h :: t) (py "/")); exact H1. }
        rewrite (@join_step_rel a (posixpath.join_step (h :: t) e2))
          by assumption.
        rewrite (@join_step_rel a (h :: t)) by assumption.
        rewrite (@join_step_rel (h :: t) e2) by assumption.
        cbn [isempty orb].
        destruct (isempty a || endswith a (py "/")) eqn:Ea;
          rewrite join_step_rel by assumption.
        -- replace (isempty (a ++ h :: t)) with false
             by (now destruct a).
           rewrite endswith_app by discriminate. cbn [orb].
           destruct (endswith (h :: t) (py "/"));
             now rewrite <- ?app_assoc.
        -- replace (isempty (a ++ py "/" ++ h :: t)) with false
             by (now destruct a).
           replace (endswith (a ++ py "/" ++ h :: t) (py "/"))
             with (endswith (h :: t) (py "/"))
             by (rewrite app_assoc; now rewrite endswith_app by discriminate).
           cbn [orb].
           destruct (endswith (h :: t) (py "/"));
             now rewrite <- ?app_assoc.
Qed.

Lemma join_assoc (a e1 : str) (es : list str) :
  posixpath.join (posixpath.join_step a e1) es
  = posixpath.join_step a (posixpath.join e1 es).
Proof.
  unfold posixpath.join. revert e1.
  induction es as [|e2 es IH]; intros e1; [reflexivity|].
  cbn [fold_left]. now rewrite join_step_assoc, IH.
Qed.

(** The normalized join from the working directory is
    [abspath(join(first, rest...))] of the expanded fragments. *)
Lemma joined_fragments_abspath (w : World) (first : str) (rest : list str) :
  joined_fragments w (first :: rest)
  = posixpath.abspath w
      (posixpath.join (posixpath.expanduser w first)
         (map (posixpath.expanduser w) rest)).
Proof.
  rewrite abspath_join_step_cwd. unfold joined_fragments. f_equal.
  cbn [map]. rewrite <- join_assoc. reflexivity.
Qed.

(** When no joined path on the way is an existing regular file, the stored
    path is the standard join of the home-expanded fragments, in order, made
    absolute: [abspath(join(first, rest...))]. *)
Theorem init_without_file_hit :
  forall (w : World) (first : str) (rest : list str),
    posixpath.isabs (cwd w) = true ->
    no_file_hit w (first :: rest) ->
    path (__init__ w (first :: rest))
    = posixpath.abspath w
        (posixpath.join (posixpath.expanduser w first)
           (map (posixpath.expanduser w) rest)).
Proof.
  intros w first rest Hcwd. rewrite <- joined_fragments_abspath.
  assert (G : forall paths, paths <> [] -> no_file_hit w paths ->
                            path (__init__ w paths) = joined_fragments w paths).
  { induction paths as [|cur pre IH] using rev_ind; [congruence|].
    intros _ Hno.
    assert (Hpre : match pre with
                   | [] => py ""
                   | _ => joined_fragments w pre
                   end = path (__init__ w pre)).
    { destruct pre as [|p pre'] eqn:Epre; [reflexivity|].
      rewrite <- Epre in *. symmetry. apply IH; [subst; discriminate|].
      intros a b Ha Hab. apply (Hno a (b ++ [cur])); [assumption|].
      now rewrite Hab, app_assoc. }
    rewrite init_snoc. unfold init_step.
    rewrite <- Hpre, abspath_join_stored by assumption.
    rewrite (Hno (pre ++ [cur]) []);
      [reflexivity | now destruct pre | now rewrite app_nil_r]. }
  apply G. discriminate.
Qed.

Lemma init_without_file_hit_witness :
  path (__init__ cory_world [py "~"; py "bin/../src"]) = py "/home/cory/src".
Proof.
  assert (Hno : no_file_hit cory_world [py "~"; py "bin/../src"]).
  { intros pre post Hne E.
    destruct pre as [|a [|b [|c pre]]]; [congruence| | |];
      simpl in E; inversion E; subst; reflexivity. }
  exact (@init_without_file_hit cory_world (py "~") [py "bin/../src"]
           eq_refl Hno).
Defined.

(** ** [_sibpath] and the name of the file itself *)

Section RfindFacts.
Context {A : Type} `{PyChar A}.

Lemma rfind_absent (c : A) (s : list A) : ~ In c s -> rfind c s = (-1)%Z.
Proof.
  induction s as [|x s IH]; intros Hs; [reflexivity|].
  simpl. rewrite IH by (intros Hin; apply Hs; now right). simpl.
  ch_case x c; [|reflexivity]. exfalso. apply Hs. now left.
Qed.

Lemma rfind_app_last (c : A) (x name : list A) :
  ~ In c name -> rfind c (x ++ c :: name) = Z.of_nat (length x).
Proof.
  intros Hname. induction x as [|h x IH].
  - simpl. rewrite rfind_absent by assumption. simpl.
    now rewrite ch_eqb_refl.
  - cbn [app]. simpl rfind. rewrite IH.
    replace (0 <=? Z.of_nat (length x))%Z with true
      by (symmetry; apply Z.leb_le; lia).
    simpl length. lia.
Qed.

Lemma rstrip_char_snoc_same (c : A) (s : list A) :
  rstrip_char c (s ++ [c]) = rstrip_char c s.
Proof.
  unfold rstrip_char. rewrite rev_app_distr. simpl.
  now rewrite ch_eqb_refl.
Qed.

Lemma rstrip_char_snoc_other (c y : A) (s : list A) :
  y <> c -> rstrip_char c (s ++ [y]) = s ++ [y].
Proof.
  intros Hy. unfold rstrip_char. rewrite rev_app_distr. simpl.
  apply ch_eqb_neq in Hy. rewrite Hy. simpl. now rewrite rev_involutive.
Qed.

End RfindFacts.

Lemma slice_at_last_slash (x name : str) :
  ~ In SLASH name ->
  slice_to (rfind SLASH (x ++ SLASH :: name) + 1) (x ++ SLASH :: name)
  = x ++ [SLASH]
  /\ slice_from (rfind SLASH (x ++ SLASH :: name) + 1) (x ++ SLASH :: name)
     = name.
Proof.
  intros Hname. rewrite rfind_app_last by assumption.
  unfold slice_to, slice_from.
  replace (Z.to_nat (Z.of_nat (length x) + 1)) with (length (x ++ [SLASH]))
    by (rewrite length_app; simpl; lia).
  replace (x ++ SLASH :: name) with ((x ++ [SLASH]) ++ name)
    by now rewrite <- app_assoc.
  split.
  - rewrite firstn_app, Nat.sub_diag, firstn_all. simpl. apply app_nil_r.
  - rewrite skipn_app, Nat.sub_diag, skipn_all. reflexivity.
Qed.

Lemma str_join_snoc (sep : str) (front : list str) (l : str) :
  front <> [] ->
  str_join sep (front ++ [l]) = str_join sep front ++ sep ++ l.
Proof.
  induction front as [|a front IH]; [congruence|]. intros _.
  destruct front as [|b front].
  - reflexivity.
  - change (str_join sep ((a :: b :: front) ++ [l]))
      with (a ++ sep ++ str_join sep ((b :: front) ++ [l])).
    rewrite IH by discriminate.
    change (str_join sep (a :: b :: front))
      with (a ++ sep ++ str_join sep (b :: front)).
    now rewrite <- !app_assoc.
Qed.

(** Joining the directory part of a path cut at its last slash with the
    name after that slash gives the path back, when the part before the
    slash is only slashes or ends with another character. *)
Lemma dirname_join_basename (x name : str) :
  ~ In SLASH name ->
  x = repeat SLASH (length x) \/ (exists x' y, x = x' ++ [y] /\ y <> SLASH) ->
  posixpath.join (posixpath.dirname (x ++ SLASH :: name))
    [basename (x ++ SLASH :: name)]
  = x ++ SLASH :: name.
Proof.
  intros Hname Hx.
  assert (Hrel : posixpath.isabs name = false).
  { destruct name as [|c name]; [reflexivity|].
    unfold posixpath.isabs. simpl. rewrite andb_true_r.
    apply Ascii.eqb_neq. intros ->. apply Hname. now left. }
  unfold posixpath.dirname, basename.
  destruct (@slice_at_last_slash x name Hname) as [-> ->].
  unfold posixpath.join. cbn [fold_left].
  destruct Hx as [Hall | (x' & y & Ex & Hy)].
  - assert (Hhead : x ++ [SLASH] = repeat SLASH (length (x ++ [SLASH]))).
    { rewrite length_app, repeat_app. cbn [length repeat].
      f_equal. exact Hall. }
    rewrite <- Hhead, str_eqb_refl, andb_false_r.
    rewrite join_step_rel by assumption.
    replace (endswith (x ++ [SLASH]) (py "/")) with true
      by (symmetry; apply endswith_char; now exists x).
    rewrite orb_true_r. now rewrite <- app_assoc.
  - assert (Hnot : str_eqb (x ++ [SLASH])
                     (repeat SLASH (length (x ++ [SLASH]))) = false).
    { apply str_eqb_neq. intros E.
      assert (Hin : In y (x ++ [SLASH]))
        by (rewrite Ex, !in_app_iff; left; right; now left).
      rewrite E in Hin. apply repeat_spec in Hin. contradiction. }
    rewrite Hnot.
    replace (isempty (x ++ [SLASH])) with false by (now destruct x).
    cbn [negb andb].
    rewrite rstrip_char_snoc_same, Ex, rstrip_char_snoc_other by assumption.
    rewrite join_step_rel by assumption.
    replace (isempty (x' ++ [y])) with false by (now destruct x').
    replace (endswith (x' ++ [y]) (py "/")) with false.
    + cbn [orb]. now rewrite <- !app_assoc.
    + symmetry. destruct (endswith (x' ++ [y]) (py "/")) eqn:E;
        [|reflexivity].
      apply endswith_char in E. destruct E as (s' & E).
      apply app_inj_tail in E. destruct E as [_ E]. contradiction.
Qed.

(** The sibling named like the file itself is the file: [_sibpath] with the
    last component of the absolute path of [path] gives that absolute path
    back. *)
Theorem sibpath_of_own_name :
  forall (w : World) (p : str),
    posixpath.isabs (cwd w) = true ->
    _sibpath w p (basename (posixpath.abspath w p)) = posixpath.abspath w p.
Proof.
  intros w p Hcwd. unfold _sibpath.
  assert (Hshape : exists k comps,
             (k = 1 \/ k = 2) /\ Forall plain_component comps
             /\ posixpath.abspath w p
                = repeat SLASH k ++ str_join (py "/") comps).
  { unfold posixpath.abspath. apply normpath_abs_shape.
    destruct (posixpath.isabs p) eqn:Ep; simpl;
      [assumption | now apply join_step_isabs]. }
  destruct Hshape as (k & comps & Hk & Hall & ->).
  destruct comps as [|c0 comps0] eqn:Ecomps.
  - destruct Hk as [-> | ->]; reflexivity.
  - rewrite <- Ecomps in *.
    assert (Hne : comps <> []) by (subst; discriminate).
    destruct (exists_last Hne) as (front & name & Efront).
    rewrite Efront in *. clear Ecomps.
    apply Forall_app in Hall. destruct Hall as [Hfront Hname].
    inversion Hname as [|? ? (Hn0 & _ & _ & Hnoslash) _]; subst.
    destruct front as [|f front0] eqn:Ef.
    + cbn [app str_join].
      assert (Ek : exists j, k = S j /\ (j = 0 \/ j = 1))
        by (destruct Hk as [-> | ->]; eauto).
      destruct Ek as (j & -> & Hj).
      replace (repeat (SLASH : ascii) (S j) ++ name)
        with (repeat SLASH j ++ SLASH :: name)
        by (cbn [repeat]; rewrite repeat_cons, <- app_assoc; reflexivity).
      apply dirname_join_basename; [assumption|].
      left. now rewrite repeat_length.
    + rewrite <- Ef in *.
      assert (Hfne : front <> []) by (subst; discriminate).
      rewrite str_join_snoc by assumption.
      change (py "/" ++ name) with (SLASH :: name).
      rewrite app_assoc.
      apply dirname_join_basename; [assumption|].
      right.
      destruct (join_ends_with_last (py "/") Hfne) as (pre & EJ).
      assert (Hlast : plain_component (last front [])).
      { rewrite Forall_forall in Hfront. apply Hfront. now apply last_in. }
      destruct Hlast as (Hl0 & _ & _ & Hls).
      destruct (exists_last Hl0) as (l' & y & El).
      exists (repeat SLASH k ++ pre ++ l'), y. split.
      * rewrite EJ, El, <- !app_assoc. reflexivity.
      * intros ->. apply Hls. rewrite El. apply in_app_iff. right. now left.
Qed.

Lemma sibpath_of_own_name_witness :
  _sibpath cory_world (py "codado/../codado/py.py") (py "py.py")
  = py "/home/cory/src/Codado/codado/py.py".
Proof.
  exact (@sibpath_of_own_name cory_world (py "codado/../codado/py.py")
           eq_refl).
Defined.

(** The sample class under the prefix [test_]: [helper] and [limit] keep
    their values, the two tests are rewrapped. *)
Lemma eachMethod_leaves_others_witness :
  dict_getitem (py "limit")
    (fst (sample_eachMethod (FilterFunction (fun _ => true))
            sample_members sample_members))
  = Some (Plain (py "limit")).
Proof.
  apply (@eachMethod_leaves_others sample_value sample_is_method
           sample_unbound sample_class_is_type Decorated AsClassmethod
           (FilterFunction (fun _ => true)) sample_members sample_members
           (py "limit")).
  intros fn Hin. simpl in Hin.
  destruct Hin as [E | [E | [E | [E | []]]]]; inversion E; reflexivity.
Defined.

Lemma eachMethod_prefix_leaves_others_witness :
  dict_getitem (py "helper")
    (fst (sample_eachMethod (FilterPrefix (py "test_"))
            sample_members sample_members))
  = Some (Unbound (py "helper")).
Proof.
  apply (@eachMethod_prefix_leaves_others sample_value sample_is_method
           sample_unbound sample_class_is_type Decorated AsClassmethod
           (py "test_") sample_members sample_members (py "helper")).
  reflexivity.
Defined.

Lemma eachMethod_wraps_every_match_witness :
  snd (sample_eachMethod (FilterPrefix (py "test_"))
         sample_members sample_members) = None
  /\ forall name fn,
       In (name, fn) sample_members ->
       selected sample_is_method (filter_test (FilterPrefix (py "test_")))
         (name, fn) = true ->
       dict_getitem name
         (fst (sample_eachMethod (FilterPrefix (py "test_"))
                 sample_members sample_members))
       = Some (wrapped sample_unbound Decorated AsClassmethod fn).
Proof.
  apply (@eachMethod_wraps_every_match sample_value sample_is_method
           sample_unbound sample_class_is_type Decorated AsClassmethod
           (FilterPrefix (py "test_")) sample_members sample_members).
  - repeat constructor; simpl; intuition discriminate.
  - intros m Hin Hsel. simpl in Hin.
    destruct Hin as [E | [E | [E | [E | []]]]]; subst m;
      try reflexivity; discriminate.
Defined.

(** With a method bound to an instance among the members, decoration stops
    there: [helper] is already rewrapped, [test_run] is never reached. *)
Lemma eachMethod_assertion_is_partial_witness :
  sample_eachMethod (FilterFunction (fun _ => true))
    ([(py "helper", Unbound (py "helper"))]
     ++ (py "hook", InstanceBound (py "hook"))
        :: [(py "test_run", Unbound (py "test_run"))])
    []
  = ([(py "helper", Decorated (Unbound (py "helper")))],
     Some (AssertionError (py "hook"))).
Proof.
  apply (@eachMethod_assertion_is_partial sample_value sample_is_method
           sample_unbound sample_class_is_type Decorated AsClassmethod
           (FilterFunction (fun _ => true))
           [(py "helper", Unbound (py "helper"))]
           [(py "test_run", Unbound (py "test_run"))] []
           (py "hook") (InstanceBound (py "hook"))).
  - intros m [E | []] _. subst m. reflexivity.
  - reflexivity.
  - reflexivity.
Defined.

Lemma cleaned_first_line_not_empty_witness :
  exists f,
    first_chars (cleandoc ([NL] ++ py "    Summary." ++ [NL; NL]
                           ++ py "    Details." ++ [NL]))
    = Some f /\ f <> [].
Proof.
  apply (cleaned_first_line_not_empty
           ([NL] ++ py "    Summary." ++ [NL; NL] ++ py "    Details."
            ++ [NL])).
  discriminate.
Defined.

(** ** A failing restore *)

(** When the directory recorded on entry cannot be entered any more, the
    block ends with the [OSError] of [__exit__], whether its body returned
    or raised (the body's own error is lost), and the process stays in the
    directory the body left it in. *)
Theorem with_restore_failure :
  forall (body : fromdir -> M unit) (st st1 st2 : State) (x : fromdir)
         (r : unit + exn),
    __enter__ st = (inl x, st1) ->
    body x st1 = (r, st2) ->
    _origDir (self st2) = _origDir (self st1) ->
    dir_lookup (world st2) (cwd (world st2)) (cwd (world st)) = None ->
    with_fromdir body st = (inr OSError, st2).
Proof.
  intros body st st1 st2 x r Henter Hbody Hkeep Hfail.
  assert (Hrec : _origDir (self st1) = Some (cwd (world st))).
  { rewrite enter_run in Henter.
    destruct (dir_lookup (world st) (cwd (world st)) (path (self st)));
      inversion Henter; reflexivity. }
  rewrite Hrec in Hkeep.
  unfold with_fromdir, bind. rewrite Henter, Hbody.
  unfold __exit__, bind, get_origDir, os_chdir.
  destruct r as [[]|e]; rewrite Hkeep, Hfail; reflexivity.
Qed.

(** A world in which only [/home/cory] can be entered, and a resolver for
    it used from the checkout: the way back is closed. *)
Lemma with_restore_failure_witness :
  let w := {| cwd := py "/home/cory/src/Codado";
              environ_HOME := None;
              pw_dir_uid := py "/home/cory";
              pw_dir_name := fun _ => None;
              stat_isreg := fun _ => false;
              dir_lookup := fun _ p =>
                if str_eqb p (py "/home/cory") then Some p else None |} in
  let st := {| world := w;
               self := {| path := py "/home/cory"; _origDir := None |} |} in
  let st2 := {| world := set_cwd (py "/home/cory") w;
                self := {| path := py "/home/cory";
                           _origDir := Some (py "/home/cory/src/Codado") |} |} in
  with_fromdir (fun _ => raise (UserError 7)) st = (inr OSError, st2).
Proof.
  intros w st st2.
  apply (@with_restore_failure (fun _ => raise (UserError 7)) st st2 st2
           {| path := py "/home/cory";
              _origDir := Some (py "/home/cory/src/Codado") |}
           (inr (UserError 7))); reflexivity.
Defined.
